(** * OCR-to-Markdown server: the request pipeline of [POST /api/ocr]

    A shallow embedding of the two variants of the Express handler
    ([server.js], which sends the image inline to the chat-completions API,
    and the older variant that stages the image in a temporary file and
    calls the [llama-ocr] library), together with the JavaScript
    primitives the handler relies on.

    Strings are sequences of code units ([string]); buffers are lists of
    bytes; Numbers are binary64 values; the object store and the local
    file system are finite maps; the external services are oracles
    recorded in a [World], and every call to them is recorded in a trace.
    An [async] function is a computation in a state and exception monad;
    [await] is its bind.  The calls to [console.log] and [console.error]
    are left out.  The values that come back from the services have the
    types their libraries declare: a completion has a list of choices,
    [ocr] returns a string, a thrown value is an [Error]. *)

From Stdlib Require Import ZArith Lia List String Ascii Bool DecimalString.
From Stdlib Require Import QArith Qround Qpower Qabs Lqa.
From Stdlib Require DecimalPos DecimalZ.
From Stdlib.Strings Require Import Byte.
From stdpp Require Import gmap strings list fin_maps.

Local Open Scope string_scope.
Local Open Scope list_scope.

(** ** JavaScript primitives *)

Module Js.

(** [!v] for a value that is either [undefined] or a string: the empty
    string is falsy as well. *)
Definition truthy (v : option string) : bool :=
  match v with
  | Some s => negb (String.eqb s "")
  | None => false
  end.

(** [v || d] where [v] is [undefined], [null] or a string. *)
Definition or_else (v : option string) (d : string) : string :=
  if truthy v then default d v else d.

(** [String(n)] for an integral Number below 1e21 in magnitude: plain
    decimal digits, with a leading minus sign for negative values. *)
Definition Number_toString (n : Z) : string :=
  NilZero.string_of_int (Z.to_int n).

(** *** [String.prototype.replace] with the pattern [/\.[^.]+$/]

    [no_dot s] is the class run [[^.]*] reaching the end of input. *)
Fixpoint no_dot (s : string) : bool :=
  match s with
  | EmptyString => true
  | String c r => negb (Ascii.eqb c ".") && no_dot r
  end.

(** Does [/\.[^.]+$/] match at the very start of [s]?  A dot, then at
    least one character, none of them a dot, up to the end of input. *)
Definition ext_match_here (s : string) : bool :=
  match s with
  | String c (String _ _ as t) => Ascii.eqb c "." && no_dot t
  | _ => false
  end.

(** [s.replace(/\.[^.]+$/, '.md')]: the start positions are tried from
    left to right; the first match (which extends to the end of input) is
    replaced, and a string without a match is returned unchanged. *)
Fixpoint replace_ext (s : string) : string :=
  if ext_match_here s then ".md"
  else match s with
       | EmptyString => EmptyString
       | String c r => String c (replace_ext r)
       end.

(** Decimal digits. *)
Definition is_digit (c : ascii) : bool :=
  let n := nat_of_ascii c in (48 <=? n)%nat && (n <=? 57)%nat.

Fixpoint all_digits (s : string) : bool :=
  match s with
  | EmptyString => true
  | String c r => is_digit c && all_digits r
  end.

(** *** [Buffer.prototype.toString('base64')] *)

Definition alphabet : string :=
  "ABCDEFGHIJKLMNOPQRSTUVWXYZabcdefghijklmnopqrstuvwxyz0123456789+/".

Definition sextet (n : N) : ascii :=
  default "="%char (String.get (N.to_nat (n mod 64)) alphabet).

Fixpoint base64 (bs : list byte) : string :=
  match bs with
  | [] => ""
  | [a] =>
      let n := (Byte.to_N a * 65536)%N in
      String (sextet (n / 262144)) (String (sextet (n / 4096)) "==")
  | [a; b] =>
      let n := (Byte.to_N a * 65536 + Byte.to_N b * 256)%N in
      String (sextet (n / 262144)) (String (sextet (n / 4096))
        (String (sextet (n / 64)) "="))
  | a :: b :: c :: rest =>
      let n := (Byte.to_N a * 65536 + Byte.to_N b * 256 + Byte.to_N c)%N in
      String (sextet (n / 262144)) (String (sextet (n / 4096))
        (String (sextet (n / 64)) (String (sextet n) (base64 rest))))
  end.

End Js.

(** ** Numbers: binary64 arithmetic on the values the handler computes

    A finite double is [mant * 2 ^ expo].  Every operation is the exact
    rational result rounded to nearest, ties to even, with 53 bits of
    precision and gradual underflow.  Overflow to infinity is not
    modelled: the magnitudes occurring here stay below [2 ^ 55]. *)

Module Float64.

Local Open Scope Q_scope.

Record dyadic := Dy { mant : Z; expo : Z }.

Definition value (x : dyadic) : Q := inject_Z (mant x) * 2 ^ expo x.

(** The integer [k] with [2 ^ k <= r < 2 ^ (k + 1)] for a positive
    rational [r]: the difference of the binary logarithms of numerator
    and denominator, or one less. *)
Definition ilog2 (r : Q) : Z :=
  let k := (Z.log2 (Qnum r) - Z.log2 (Zpos (Qden r)))%Z in
  if Qle_bool (2 ^ k) r then k else (k - 1)%Z.

(** The exponent of the unit in the last place of a positive rational
    [r], 52 below [ilog2 r] and never below the subnormal exponent
    [-1074]. *)
Definition binade (r : Q) : Z := Z.max (ilog2 r - 52) (-1074).

Definition round_half_even (r : Q) : Z :=
  let n := Qfloor r in
  match Qcompare (r - inject_Z n) (1 # 2) with
  | Lt => n
  | Gt => (n + 1)%Z
  | Eq => if Z.even n then n else (n + 1)%Z
  end.

Definition RN_pos (r : Q) : dyadic :=
  let e := binade r in Dy (round_half_even (r / 2 ^ e)) e.

(** Round to nearest, ties to even. *)
Definition RN (r : Q) : dyadic :=
  match Qcompare r 0 with
  | Eq => Dy 0 0
  | Gt => RN_pos r
  | Lt => let d := RN_pos (- r) in Dy (- mant d) (expo d)
  end.

(** The Number denoted by an integer literal or an integral time value. *)
Definition of_int (n : Z) : dyadic := RN (inject_Z n).

(** [x - y] and [x / y] (for a non-zero [y]). *)
Definition sub (x y : dyadic) : dyadic := RN (value x - value y).
Definition div (x y : dyadic) : dyadic := RN (value x / value y).

(** *** [Number.prototype.toFixed(2)]

    The integer [n] for which [n / 100 - x] is as close to zero as
    possible, the larger one when there are two, for [x >= 0]. *)
Definition nearest_hundredths (x : Q) : Z := Qfloor (100 * x + (1 # 2)).

Fixpoint zeros (k : nat) : string :=
  match k with
  | O => ""
  | S k => String "0" (zeros k)
  end.

(** Left padding with zeros up to three digits. *)
Definition pad_zeros (m : string) : string :=
  let k := String.length m in
  if (k <=? 2)%nat then zeros (3 - k) +:+ m else m.

(** The steps of the specification for [fractionDigits = 2] and
    [|x| < 1e21]: sign, digits of [n], padding, and the decimal point
    before the last two digits. *)
Definition toFixed2 (x : dyadic) : string :=
  let s := if (mant x <? 0)%Z then "-" else "" in
  let n := nearest_hundredths (Qabs (value x)) in
  let m := pad_zeros (Js.Number_toString n) in
  let k := String.length m in
  let a := String.substring 0 (k - 2) m in
  let b := String.substring (k - 2) 2 m in
  s +:+ a +:+ "." +:+ b.

(** The number of hundredths that [toFixed2 x] shows, with its sign. *)
Definition shown_hundredths (x : dyadic) : Z :=
  let n := nearest_hundredths (Qabs (value x)) in
  if (mant x <? 0)%Z then (- n)%Z else n.

End Float64.


(** ** Data model *)

(** A time value as returned by [Date.now()]: an integral number of
    milliseconds, at most 8.64e15 in magnitude. *)
Record TimeValue := {
  ms : Z;
  ms_range : (Z.abs ms <=? 8640000000000000)%Z = true
}.

(** [req.file] as filled in by the upload middleware (memory storage). *)
Record File := {
  originalname : string;
  mimetype : string;
  buffer : list byte;
  size : N
}.

(** [req.file] is [undefined] when the multipart field is missing. *)
Record Request := { file : option File }.

(** The two variables of [process.env] the handler reads. *)
Record Env := {
  TOGETHER_API_KEY : option string;
  BUCKET_NAME : option string
}.

(** A thrown [Error]; [message] may be missing or empty. *)
Record JsError := { message : option string }.

(** The [Body] of a [PutObjectCommand]: a [Buffer] or a string. *)
Inductive Content :=
| Buffer (b : list byte)
| Text (s : string).

Record PutObjectCommand := {
  Bucket : string;
  Key : string;
  Body : Content;
  ContentType : string
}.

(** The chat-completions request of [server.js]: one user message made of
    a text part and an image part. *)
Record ChatRequest := {
  model : string;
  text : string;
  image_url : string;
  max_tokens : Z;
  temperature : Q
}.

Record ChatMessage := { content : option string }.
Record Choice := { choice_message : option ChatMessage }.
Record ChatCompletion := { choices : list Choice }.

(** The argument of [ocr] from [llama-ocr]. *)
Record OcrArgs := { filePath : string; apiKey : string }.

(** The JSON bodies sent to the client. *)
Record OcrData := {
  inputFile : string;
  outputFile : string;
  markdown : string;
  bucket : string;
  processingTime : string
}.

Inductive Envelope :=
| Failure (error : string)
| Success (msg : string) (data : OcrData).

Definition success (e : Envelope) : bool :=
  match e with
  | Failure _ => false
  | Success _ _ => true
  end.

Record Response := { status : Z; envelope : Envelope }.

(** ** The outside world

    Every call that leaves the process is answered by the [World]: the
    value of the [n]-th clock reading, whether the [n]-th [send] to the
    object store is accepted ([None]) or rejected with an error, what the
    inference service answers, and whether the file system accepts a
    write or an unlink. *)
Record World := {
  clock : nat -> TimeValue;
  s3 : nat -> PutObjectCommand -> option JsError;
  chat : ChatRequest -> JsError + ChatCompletion;
  llama_ocr : OcrArgs -> option (list byte) -> JsError + string;
  fs_write : string -> option JsError;
  fs_unlink : string -> option JsError
}.

(** What an observer of the process sees, in order. *)
Inductive Event :=
| DateNow (t : TimeValue)
| WriteFile (path : string) (data : list byte) (r : option JsError)
| Unlink (path : string) (r : option JsError)
| Send (cmd : PutObjectCommand) (r : option JsError)
| ChatCreate (q : ChatRequest) (r : JsError + ChatCompletion)
| Ocr (a : OcrArgs) (r : JsError + string)
| Respond (r : Response).

Record S3Object := { obj_body : Content; obj_type : string }.

Record State := {
  ticks : nat;
  sends : nat;
  store : gmap (string * string) S3Object;
  tmp : gmap string (list byte);
  trace : list Event
}.

Definition log (ev : Event) (st : State) : State :=
  {| ticks := ticks st; sends := sends st; store := store st;
     tmp := tmp st; trace := trace st ++ [ev] |}.

(** ** Asynchronous code as a state and exception monad *)

Inductive Completion (A : Type) :=
| Normal (a : A)
| Throw (e : JsError).

Arguments Normal {A} a.
Arguments Throw {A} e.

Definition M (A : Type) : Type := State -> Completion A * State.

Definition ret {A} (a : A) : M A := fun st => (Normal a, st).

Definition throw {A} (e : JsError) : M A := fun st => (Throw e, st).

Definition bind {A B} (c : M A) (k : A -> M B) : M B :=
  fun st =>
    match c st with
    | (Normal a, st') => k a st'
    | (Throw e, st') => (Throw e, st')
    end.

(** [try { body } catch (error) { handler }] *)
Definition try_catch {A} (body : M A) (handler : JsError -> M A) : M A :=
  fun st =>
    match body st with
    | (Normal a, st') => (Normal a, st')
    | (Throw e, st') => handler e st'
    end.

Declare Scope js_scope.
Delimit Scope js_scope with js.

Notation "x <- c ;; k" := (bind c (fun x => k))
  (at level 100, c at next level, right associativity) : js_scope.
Notation "c ;;; k" := (bind c (fun _ => k))
  (at level 100, right associativity) : js_scope.

Local Open Scope js_scope.

Section Services.

Variable w : World.

(** [Date.now()] *)
Definition Date_now : M TimeValue :=
  fun st =>
    let t := clock w (ticks st) in
    (Normal t,
     {| ticks := S (ticks st); sends := sends st; store := store st;
        tmp := tmp st; trace := trace st ++ [DateNow t] |}).

(** [await s3Client.send(command)]: an accepted command stores the
    object under its bucket and key, replacing what was there; a
    rejected one leaves the store as it was and throws. *)
Definition s3Client_send (command : PutObjectCommand) : M unit :=
  fun st =>
    let r := s3 w (sends st) command in
    let st' :=
      {| ticks := ticks st; sends := S (sends st);
         store :=
           match r with
           | None =>
               <[(Bucket command, Key command) :=
                   {| obj_body := Body command;
                      obj_type := ContentType command |}]> (store st)
           | Some _ => store st
           end;
         tmp := tmp st; trace := trace st ++ [Send command r] |} in
    match r with
    | None => (Normal tt, st')
    | Some e => (Throw e, st')
    end.

(** [await together.chat.completions.create(q)] *)
Definition together_chat_completions_create (q : ChatRequest)
  : M ChatCompletion :=
  fun st =>
    let r := chat w q in
    let st' := log (ChatCreate q r) st in
    match r with
    | inr c => (Normal c, st')
    | inl e => (Throw e, st')
    end.

(** [await ocr(a)]: the library reads the file at [filePath]. *)
Definition ocr (a : OcrArgs) : M string :=
  fun st =>
    let r := llama_ocr w a (tmp st !! filePath a) in
    let st' := log (Ocr a r) st in
    match r with
    | inr s => (Normal s, st')
    | inl e => (Throw e, st')
    end.

(** [await fs.writeFile(path, data)] *)
Definition fs_writeFile (path : string) (data : list byte) : M unit :=
  fun st =>
    let r := fs_write w path in
    let st' :=
      {| ticks := ticks st; sends := sends st; store := store st;
         tmp := match r with
                | None => <[path := data]> (tmp st)
                | Some _ => tmp st
                end;
         trace := trace st ++ [WriteFile path data r] |} in
    match r with
    | None => (Normal tt, st')
    | Some e => (Throw e, st')
    end.

Definition ENOENT : JsError :=
  {| message := Some "ENOENT: no such file or directory" |}.

(** [await fs.unlink(path)]: a missing file is an error as well. *)
Definition fs_unlink_file (path : string) : M unit :=
  fun st =>
    let r := match tmp st !! path with
             | None => Some ENOENT
             | Some _ => fs_unlink w path
             end in
    let st' :=
      {| ticks := ticks st; sends := sends st; store := store st;
         tmp := match r with
                | None => delete path (tmp st)
                | Some _ => tmp st
                end;
         trace := trace st ++ [Unlink path r] |} in
    match r with
    | None => (Normal tt, st')
    | Some e => (Throw e, st')
    end.

(** [res.status(code).json(body)] *)
Definition res_status_json (code : Z) (body : Envelope) : M unit :=
  fun st => (Normal tt, log (Respond {| status := code; envelope := body |}) st).

(** [res.json(body)]: the status stays at its default, 200. *)
Definition res_json (body : Envelope) : M unit := res_status_json 200 body.

(** [uploadToS3], the same in both variants. *)
Definition uploadToS3 (bucket key : string) (content : Content)
    (contentType : string) : M unit :=
  let command :=
    {| Bucket := bucket; Key := key; Body := content;
       ContentType := contentType |} in
  s3Client_send command.

(** The [catch] block, the same in both variants. *)
Definition on_error (error : JsError) : M unit :=
  res_status_json 500
    (Failure (Js.or_else (message error) "Failed to process image")).

(** [(Date.now() - startTime) / 1000], where [now] is the value of
    [Date.now()], and its rendering by [toFixed(2)]. *)
Definition seconds (now startTime : TimeValue) : Float64.dyadic :=
  Float64.div
    (Float64.sub (Float64.of_int (ms now)) (Float64.of_int (ms startTime)))
    (Float64.of_int 1000).

Definition elapsed (now startTime : TimeValue) : string :=
  Float64.toFixed2 (seconds now startTime).

(** [`uploads/${timestamp}-${req.file.originalname}`] *)
Definition s3Key (timestamp : TimeValue) (f : File) : string :=
  "uploads/" +:+ Js.Number_toString (ms timestamp) +:+ "-" +:+ originalname f.

(** [`/tmp/${timestamp}-${req.file.originalname}`] *)
Definition tempPath (timestamp : TimeValue) (f : File) : string :=
  "/tmp/" +:+ Js.Number_toString (ms timestamp) +:+ "-" +:+ originalname f.

(** [s3Key.replace(/\.[^.]+$/, '.md')] *)
Definition mdKey (key : string) : string := Js.replace_ext key.

(** [`data:${req.file.mimetype};base64,${base64Image}`] *)
Definition imageDataUrl (f : File) : string :=
  let base64Image := Js.base64 (buffer f) in
  "data:" +:+ mimetype f +:+ ";base64," +:+ base64Image.

Definition prompt : string :=
  "Extract all text from this image and format it as clean markdown. Include headings, lists, tables, and any structure visible in the image. Only return the markdown content, no explanations.".

(** The argument of [together.chat.completions.create]. *)
Definition chat_request (f : File) : ChatRequest :=
  {| model := "meta-llama/Llama-4-Maverick-17B-128E-Instruct-FP8";
     text := prompt;
     image_url := imageDataUrl f;
     max_tokens := 4096;
     temperature := 1 # 10 |}.

(** [response.choices[0]?.message?.content] *)
Definition first_content (response : ChatCompletion) : option string :=
  match choices response with
  | [] => None
  | c :: _ =>
      match choice_message c with
      | None => None
      | Some m => content m
      end
  end.

(** The success envelope, the same in both variants. *)
Definition result (key mdkey md bucketName time : string) : Envelope :=
  Success "OCR processing completed successfully"
    {| inputFile := key;
       outputFile := mdkey;
       markdown := md;
       bucket := bucketName;
       processingTime := time +:+ "s" |}.

Variable env : Env.

(** *** [server.js]: the image travels inline as a data URL *)
Definition post_api_ocr (req : Request) : M unit :=
  try_catch
    (match file req with
     | None =>
         res_status_json 400
           (Failure "No image file provided. Please upload an image.")
     | Some f =>
         if negb (Js.truthy (TOGETHER_API_KEY env)) then
           res_status_json 500
             (Failure "Server configuration error: TOGETHER_API_KEY not set")
         else if negb (Js.truthy (BUCKET_NAME env)) then
           res_status_json 500
             (Failure "Server configuration error: BUCKET_NAME not set")
         else
           let bucketName := default "" (BUCKET_NAME env) in
           timestamp <- Date_now ;;
           uploadToS3 bucketName (s3Key timestamp f) (Buffer (buffer f))
             (mimetype f) ;;;
           startTime <- Date_now ;;
           response <- together_chat_completions_create (chat_request f) ;;
           let markdown :=
             Js.or_else (first_content response) "No text extracted" in
           now <- Date_now ;;
           let processingTime := elapsed now startTime in
           uploadToS3 bucketName (mdKey (s3Key timestamp f)) (Text markdown)
             "text/markdown" ;;;
           res_json
             (result (s3Key timestamp f) (mdKey (s3Key timestamp f)) markdown
                bucketName processingTime)
     end)
    on_error.

(** *** The temp-file variant: the image is staged under [/tmp] and read
    back by the OCR library *)
Definition post_api_ocr_tmp (req : Request) : M unit :=
  try_catch
    (match file req with
     | None =>
         res_status_json 400
           (Failure "No image file provided. Please upload an image.")
     | Some f =>
         if negb (Js.truthy (TOGETHER_API_KEY env)) then
           res_status_json 500
             (Failure "Server configuration error: TOGETHER_API_KEY not set")
         else if negb (Js.truthy (BUCKET_NAME env)) then
           res_status_json 500
             (Failure "Server configuration error: BUCKET_NAME not set")
         else
           let apiKey := default "" (TOGETHER_API_KEY env) in
           let bucketName := default "" (BUCKET_NAME env) in
           timestamp <- Date_now ;;
           fs_writeFile (tempPath timestamp f) (buffer f) ;;;
           uploadToS3 bucketName (s3Key timestamp f) (Buffer (buffer f))
             (mimetype f) ;;;
           startTime <- Date_now ;;
           markdown <-
             ocr {| filePath := tempPath timestamp f; apiKey := apiKey |} ;;
           now <- Date_now ;;
           let processingTime := elapsed now startTime in
           uploadToS3 bucketName (mdKey (s3Key timestamp f)) (Text markdown)
             "text/markdown" ;;;
           try_catch (fs_unlink_file (tempPath timestamp f))
             (fun _ => ret tt) ;;;
           res_json
             (result (s3Key timestamp f) (mdKey (s3Key timestamp f)) markdown
                bucketName processingTime)
     end)
    on_error.

End Services.

(** ** Observations on a run *)

(** The state in which a handler leaves the process. *)
Definition run (h : M unit) (st : State) : State := snd (h st).

(** The events of one request: what the handler added to the trace. *)
Definition events (h : M unit) (st : State) : list Event :=
  drop (length (trace st)) (trace (run h st)).

Definition respond (code : Z) (body : Envelope) : Event :=
  Respond {| status := code; envelope := body |}.

Definition put (bucketName key : string) (c : Content) (type : string)
  : PutObjectCommand :=
  {| Bucket := bucketName; Key := key; Body := c; ContentType := type |}.

(** The three checks of the validator, all passed. *)
Definition valid (env : Env) (req : Request) : bool :=
  match file req with
  | None => false
  | Some _ => Js.truthy (TOGETHER_API_KEY env) && Js.truthy (BUCKET_NAME env)
  end.

Definition no_file : Event :=
  respond 400 (Failure "No image file provided. Please upload an image.").

Definition no_credential : Event :=
  respond 500 (Failure "Server configuration error: TOGETHER_API_KEY not set").

Definition no_bucket : Event :=
  respond 500 (Failure "Server configuration error: BUCKET_NAME not set").

Definition failed (e : JsError) : Event :=
  respond 500 (Failure (Js.or_else (message e) "Failed to process image")).

(** The state [st] after [n] clock readings and [k] sends, with the given
    store and files, and [evs] added to the trace. *)
Definition after (st : State) (n k : nat)
    (objs : gmap (string * string) S3Object) (files : gmap string (list byte))
    (evs : list Event) : State :=
  {| ticks := n + ticks st; sends := k + sends st; store := objs;
     tmp := files; trace := trace st ++ evs |}.

Definition stored (c : PutObjectCommand)
    (objs : gmap (string * string) S3Object) : gmap (string * string) S3Object :=
  <[(Bucket c, Key c) := {| obj_body := Body c; obj_type := ContentType c |}]> objs.

Section Paths.

Context (w : World) (env : Env) (req : Request) (st : State).

Definition bucketName : string := default "" (BUCKET_NAME env).
Definition t0 : TimeValue := clock w (ticks st).
Definition t1 : TimeValue := clock w (S (ticks st)).
Definition t2 : TimeValue := clock w (S (S (ticks st))).

Definition image_put (f : File) : PutObjectCommand :=
  put bucketName (s3Key t0 f) (Buffer (buffer f)) (mimetype f).

Definition markdown_put (f : File) (md : string) : PutObjectCommand :=
  put bucketName (mdKey (s3Key t0 f)) (Text md) "text/markdown".

Definition extracted (c : ChatCompletion) : string :=
  Js.or_else (first_content c) "No text extracted".

Definition ok (f : File) (md : string) : Event :=
  respond 200
    (result (s3Key t0 f) (mdKey (s3Key t0 f)) md bucketName (elapsed t2 t1)).

(** The ways a request can go through [server.js], each with the state
    it leaves behind. *)
Inductive server_path (st' : State) : Prop :=
| path_no_file :
    file req = None ->
    st' = after st 0 0 (store st) (tmp st) [no_file] ->
    server_path st'
| path_no_credential f :
    file req = Some f ->
    Js.truthy (TOGETHER_API_KEY env) = false ->
    st' = after st 0 0 (store st) (tmp st) [no_credential] ->
    server_path st'
| path_no_bucket f :
    file req = Some f ->
    Js.truthy (TOGETHER_API_KEY env) = true ->
    Js.truthy (BUCKET_NAME env) = false ->
    st' = after st 0 0 (store st) (tmp st) [no_bucket] ->
    server_path st'
| path_image_rejected f e :
    file req = Some f ->
    valid env req = true ->
    s3 w (sends st) (image_put f) = Some e ->
    st' = after st 1 1 (store st) (tmp st)
            [DateNow t0; Send (image_put f) (Some e); failed e] ->
    server_path st'
| path_inference_failed f e :
    file req = Some f ->
    valid env req = true ->
    s3 w (sends st) (image_put f) = None ->
    chat w (chat_request f) = inl e ->
    st' = after st 2 1 (stored (image_put f) (store st)) (tmp st)
            [DateNow t0; Send (image_put f) None; DateNow t1;
             ChatCreate (chat_request f) (inl e); failed e] ->
    server_path st'
| path_markdown_rejected f c e :
    file req = Some f ->
    valid env req = true ->
    s3 w (sends st) (image_put f) = None ->
    chat w (chat_request f) = inr c ->
    s3 w (S (sends st)) (markdown_put f (extracted c)) = Some e ->
    st' = after st 3 2 (stored (image_put f) (store st)) (tmp st)
            [DateNow t0; Send (image_put f) None; DateNow t1;
             ChatCreate (chat_request f) (inr c); DateNow t2;
             Send (markdown_put f (extracted c)) (Some e); failed e] ->
    server_path st'
| path_success f c :
    file req = Some f ->
    valid env req = true ->
    s3 w (sends st) (image_put f) = None ->
    chat w (chat_request f) = inr c ->
    s3 w (S (sends st)) (markdown_put f (extracted c)) = None ->
    st' = after st 3 2
            (stored (markdown_put f (extracted c))
               (stored (image_put f) (store st)))
            (tmp st)
            [DateNow t0; Send (image_put f) None; DateNow t1;
             ChatCreate (chat_request f) (inr c); DateNow t2;
             Send (markdown_put f (extracted c)) None;
             ok f (extracted c)] ->
    server_path st'.

Definition ocr_args (f : File) : OcrArgs :=
  {| filePath := tempPath t0 f;
     apiKey := default "" (TOGETHER_API_KEY env) |}.

Definition staged (f : File) : gmap string (list byte) :=
  <[tempPath t0 f := buffer f]> (tmp st).

(** The files left after the cleanup, whose result is [r]. *)
Definition cleaned (f : File) (r : option JsError) : gmap string (list byte) :=
  match r with
  | None => delete (tempPath t0 f) (staged f)
  | Some _ => staged f
  end.

(** The ways a request can go through the temp-file variant. *)
Inductive tmp_path (st' : State) : Prop :=
| tpath_no_file :
    file req = None ->
    st' = after st 0 0 (store st) (tmp st) [no_file] ->
    tmp_path st'
| tpath_no_credential f :
    file req = Some f ->
    Js.truthy (TOGETHER_API_KEY env) = false ->
    st' = after st 0 0 (store st) (tmp st) [no_credential] ->
    tmp_path st'
| tpath_no_bucket f :
    file req = Some f ->
    Js.truthy (TOGETHER_API_KEY env) = true ->
    Js.truthy (BUCKET_NAME env) = false ->
    st' = after st 0 0 (store st) (tmp st) [no_bucket] ->
    tmp_path st'
| tpath_write_failed f e :
    file req = Some f ->
    valid env req = true ->
    fs_write w (tempPath t0 f) = Some e ->
    st' = after st 1 0 (store st) (tmp st)
            [DateNow t0; WriteFile (tempPath t0 f) (buffer f) (Some e);
             failed e] ->
    tmp_path st'
| tpath_image_rejected f e :
    file req = Some f ->
    valid env req = true ->
    fs_write w (tempPath t0 f) = None ->
    s3 w (sends st) (image_put f) = Some e ->
    st' = after st 1 1 (store st) (staged f)
            [DateNow t0; WriteFile (tempPath t0 f) (buffer f) None;
             Send (image_put f) (Some e); failed e] ->
    tmp_path st'
| tpath_inference_failed f e :
    file req = Some f ->
    valid env req = true ->
    fs_write w (tempPath t0 f) = None ->
    s3 w (sends st) (image_put f) = None ->
    llama_ocr w (ocr_args f) (Some (buffer f)) = inl e ->
    st' = after st 2 1 (stored (image_put f) (store st)) (staged f)
            [DateNow t0; WriteFile (tempPath t0 f) (buffer f) None;
             Send (image_put f) None; DateNow t1;
             Ocr (ocr_args f) (inl e); failed e] ->
    tmp_path st'
| tpath_markdown_rejected f md e :
    file req = Some f ->
    valid env req = true ->
    fs_write w (tempPath t0 f) = None ->
    s3 w (sends st) (image_put f) = None ->
    llama_ocr w (ocr_args f) (Some (buffer f)) = inr md ->
    s3 w (S (sends st)) (markdown_put f md) = Some e ->
    st' = after st 3 2 (stored (image_put f) (store st)) (staged f)
            [DateNow t0; WriteFile (tempPath t0 f) (buffer f) None;
             Send (image_put f) None; DateNow t1;
             Ocr (ocr_args f) (inr md); DateNow t2;
             Send (markdown_put f md) (Some e); failed e] ->
    tmp_path st'
| tpath_success f md :
    file req = Some f ->
    valid env req = true ->
    fs_write w (tempPath t0 f) = None ->
    s3 w (sends st) (image_put f) = None ->
    llama_ocr w (ocr_args f) (Some (buffer f)) = inr md ->
    s3 w (S (sends st)) (markdown_put f md) = None ->
    st' = after st 3 2
            (stored (markdown_put f md) (stored (image_put f) (store st)))
            (cleaned f (fs_unlink w (tempPath t0 f)))
            [DateNow t0; WriteFile (tempPath t0 f) (buffer f) None;
             Send (image_put f) None; DateNow t1;
             Ocr (ocr_args f) (inr md); DateNow t2;
             Send (markdown_put f md) None;
             Unlink (tempPath t0 f) (fs_unlink w (tempPath t0 f));
             ok f md] ->
    tmp_path st'.

End Paths.

(** ** What a trace shows *)

(** The commands sent to the object store, in order, and the responses. *)
Definition sends_of (evs : list Event) : list PutObjectCommand :=
  omap (fun ev => match ev with Send c _ => Some c | _ => None end) evs.

Definition responses (evs : list Event) : list Response :=
  omap (fun ev => match ev with Respond r => Some r | _ => None end) evs.

(** The image write carries the uploaded [Buffer]; the markdown write
    carries a string and the content type [text/markdown]. *)
Definition is_image (c : PutObjectCommand) : bool :=
  match Body c with
  | Buffer _ => true
  | Text _ => false
  end.

Definition is_markdown (c : PutObjectCommand) : bool :=
  match Body c with
  | Buffer _ => false
  | Text _ => String.eqb (ContentType c) "text/markdown"
  end.

(** A write of the given kind was issued, was accepted by the store (the
    object is written), or was rejected. *)
Definition issued (kind : PutObjectCommand -> bool) (evs : list Event) : bool :=
  existsb (fun ev => match ev with Send c _ => kind c | _ => false end) evs.

Definition written (kind : PutObjectCommand -> bool) (evs : list Event) : bool :=
  existsb (fun ev => match ev with Send c None => kind c | _ => false end) evs.

Definition rejected (kind : PutObjectCommand -> bool) (evs : list Event) : bool :=
  existsb (fun ev => match ev with Send c (Some _) => kind c | _ => false end) evs.

(** The inference call returned, or threw. *)
Definition inference_succeeded (evs : list Event) : bool :=
  existsb (fun ev => match ev with
                     | ChatCreate _ (inr _) | Ocr _ (inr _) => true
                     | _ => false
                     end) evs.

Definition inference_threw (evs : list Event) : bool :=
  existsb (fun ev => match ev with
                     | ChatCreate _ (inl _) | Ocr _ (inl _) => true
                     | _ => false
                     end) evs.

(** The request was answered with the success envelope. *)
Definition succeeded (evs : list Event) : bool :=
  existsb (fun ev => match ev with
                     | Respond r => success (envelope r)
                     | _ => false
                     end) evs.

(** The commands the store accepted, the markdown texts sent back to the
    client, and the paths whose removal was attempted. *)
Definition accepted_sends (evs : list Event) : list PutObjectCommand :=
  omap (fun ev => match ev with Send c None => Some c | _ => None end) evs.

Definition answered_markdown (evs : list Event) : list string :=
  omap (fun ev => match ev with
                  | Respond r =>
                      match envelope r with
                      | Success _ d => Some (markdown d)
                      | Failure _ => None
                      end
                  | _ => None
                  end) evs.

Definition processing_times (evs : list Event) : list string :=
  omap (fun ev => match ev with
                  | Respond r =>
                      match envelope r with
                      | Success _ d => Some (processingTime d)
                      | Failure _ => None
                      end
                  | _ => None
                  end) evs.

Definition unlinks (evs : list Event) : list string :=
  omap (fun ev => match ev with Unlink path _ => Some path | _ => None end) evs.

(** The answer is one failure envelope. *)
Definition failure_response (evs : list Event) : Prop :=
  exists code msg,
    responses evs = [{| status := code; envelope := Failure msg |}].

(** ** The validator as the specification words it

    The checks are made in order and the first failing one decides the
    error. *)
Inductive ValidationError :=
| MissingFile
| MissingCredential
| MissingBucketConfig.

Definition validate (env : Env) (req : Request) : option ValidationError :=
  match file req with
  | None => Some MissingFile
  | Some _ =>
      if negb (Js.truthy (TOGETHER_API_KEY env)) then Some MissingCredential
      else if negb (Js.truthy (BUCKET_NAME env)) then Some MissingBucketConfig
      else None
  end.

Definition rejection (e : ValidationError) : Response :=
  match e with
  | MissingFile =>
      {| status := 400;
         envelope := Failure "No image file provided. Please upload an image." |}
  | MissingCredential =>
      {| status := 500;
         envelope :=
           Failure "Server configuration error: TOGETHER_API_KEY not set" |}
  | MissingBucketConfig =>
      {| status := 500;
         envelope := Failure "Server configuration error: BUCKET_NAME not set" |}
  end.

(** ** Replacing the final extension, as the specification words it

    [split_last_dot s] cuts [s] at its last dot. *)
Fixpoint split_last_dot (s : string) : option (string * string) :=
  match s with
  | EmptyString => None
  | String c r =>
      match split_last_dot r with
      | Some (stem, ext) => Some (String c stem, ext)
      | None => if Ascii.eqb c "." then Some (EmptyString, r) else None
      end
  end.

(** A name with a non-empty final extension gets [.md] in its place; any
    other name is left as it is. *)
Definition with_md_extension (s : string) : string :=
  match split_last_dot s with
  | Some (stem, String _ _) => stem +:+ ".md"
  | _ => s
  end.

(** ** The stages of a request

    [Idle -> Validating -> UploadingImage -> Invoking -> UploadingMarkdown
    -> Done], and from every stage but [Idle] directly to the failed
    [Done]. *)
Inductive Stage :=
| Idle
| Validating
| UploadingImage
| Invoking
| UploadingMarkdown
| Done (ok : bool).

Definition forward (a b : Stage) : bool :=
  match a, b with
  | Idle, Validating
  | Validating, UploadingImage
  | UploadingImage, Invoking
  | Invoking, UploadingMarkdown
  | UploadingMarkdown, Done true => true
  | (Validating | UploadingImage | Invoking | UploadingMarkdown), Done false =>
      true
  | _, _ => false
  end.

Definition rank (s : Stage) : nat :=
  match s with
  | Idle => 0
  | Validating => 1
  | UploadingImage => 2
  | Invoking => 3
  | UploadingMarkdown => 4
  | Done _ => 5
  end.

(** The stage an event enters; clock readings and the staging and removal
    of the temporary file belong to the stage they occur in. *)
Definition stage_of (ev : Event) : option Stage :=
  match ev with
  | Send c _ => Some (if is_image c then UploadingImage else UploadingMarkdown)
  | ChatCreate _ _ | Ocr _ _ => Some Invoking
  | Respond r => Some (Done (success (envelope r)))
  | _ => None
  end.

(** The stages a request goes through.  The handler starts validating
    as soon as it is called, and validation emits no event: what follows
    [Validating] is read off the events, and [validated_first] below ties
    it to the outcome of the validator. *)
Definition history (evs : list Event) : list Stage :=
  Idle :: Validating :: omap stage_of evs.

Fixpoint chain (l : list Stage) : bool :=
  match l with
  | a :: (b :: _) as rest => forward a b && chain rest
  | _ => true
  end.

(** Scanning from the start, no event satisfying [q] is met before the
    first event satisfying [p]. *)
Fixpoint never_before (p q : Event -> bool) (evs : list Event) : bool :=
  match evs with
  | [] => true
  | ev :: rest => p ev || (negb (q ev) && never_before p q rest)
  end.

Definition image_uploaded (ev : Event) : bool :=
  match ev with Send c None => is_image c | _ => false end.

Definition inference_call (ev : Event) : bool :=
  match ev with ChatCreate _ _ | Ocr _ _ => true | _ => false end.

Definition inference_returned (ev : Event) : bool :=
  match ev with ChatCreate _ (inr _) | Ocr _ (inr _) => true | _ => false end.

Definition markdown_upload (ev : Event) : bool :=
  match ev with Send c _ => is_markdown c | _ => false end.

(** The error with which a stage fails (the removal of the temporary file
    is not a stage: its error is dropped). *)
Definition stage_error (ev : Event) : option JsError :=
  match ev with
  | WriteFile _ _ (Some e) | Send _ (Some e) => Some e
  | ChatCreate _ (inl e) | Ocr _ (inl e) => Some e
  | _ => None
  end.

(** After a failing stage comes the failure response and nothing else. *)
Fixpoint fails_fast (evs : list Event) : bool :=
  match evs with
  | [] => true
  | ev :: rest =>
      match stage_error ev with
      | Some _ =>
          match rest with
          | [Respond r] => negb (success (envelope r))
          | _ => false
          end
      | None => fails_fast rest
      end
  end.

(** The events of a request respect the order of the stages: the history
    is a chain of forward steps that ends in [Done], successful exactly
    when the success envelope was sent; no stage is entered twice; the
    inference service is not called before the store has accepted the
    image; no markdown is sent to the store before the inference call has
    returned; a failing stage is followed by the failure response and
    nothing else; exactly one response is sent. *)
Definition forward_only (evs : list Event) : Prop :=
  chain (history evs) = true
  /\ last (history evs) = Some (Done (succeeded evs))
  /\ NoDup (history evs)
  /\ never_before image_uploaded inference_call evs = true
  /\ never_before inference_returned markdown_upload evs = true
  /\ fails_fast evs = true
  /\ length (responses evs) = 1.

(** The temp-file variant could not stage the upload. *)
Definition staging_failed (evs : list Event) : bool :=
  existsb (fun ev => match ev with
                     | WriteFile _ _ (Some _) => true
                     | _ => false
                     end) evs.

(** Validation emits no event of its own, so the stage [Validating] is
    tied to the run through the validator: a request that fails
    validation has the failure response as its only event, so that the
    history goes from [Validating] directly to the failed [Done]; a
    request that passes it enters [UploadingImage] next, unless the
    temp-file variant could not stage the upload; and every event other
    than a failure response (a reading of the clock, a write or removal
    of the temporary file, a command sent to the store, an inference
    call, the success response) occurs only after validation has
    passed. *)
Definition validated_first (env : Env) (req : Request) (evs : list Event)
    : Prop :=
  (valid env req = false ->
   exists r, evs = [Respond r] /\ success (envelope r) = false)
  /\ (valid env req = true ->
      if staging_failed evs
      then history evs = [Idle; Validating; Done false]
      else exists rest,
          history evs = Idle :: Validating :: UploadingImage :: rest)
  /\ Forall (fun ev => match ev with
                       | Respond r =>
                           success (envelope r) = true -> valid env req = true
                       | _ => valid env req = true
                       end) evs.

(** ** Comparing the two variants

    The inference service behaves in the same way towards both variants:
    the chat-completions call and the library call throw the same error,
    or the library returns the text of the first choice of the
    completion. *)
Definition same_inference (w : World) : Prop :=
  forall q a bytes,
    match chat w q, llama_ocr w a bytes with
    | inl e1, inl e2 => e1 = e2
    | inr c, inr md => first_content c = Some md
    | _, _ => False
    end.

(** The world [w] with another behaviour of [fs.unlink]. *)
Definition with_unlink (w : World) (u : string -> option JsError) : World :=
  {| clock := clock w; s3 := s3 w; chat := chat w; llama_ocr := llama_ocr w;
     fs_write := fs_write w; fs_unlink := u |}.

(** ** Start-up

    [process.env] as [app.listen]'s callback reads it, and the lines the
    callback prints. *)
Record StartEnv := {
  vars : Env;
  PORT : option string;
  AWS_REGION : option string
}.

(** [`${PORT}`] for [PORT = process.env.PORT || 3000] *)
Definition shown_port (e : StartEnv) : string := Js.or_else (PORT e) "3000".

Definition banner (e : StartEnv) : list string :=
  [ "";
    "🚀 OCR-to-Markdown Server Started!";
    "=====================================";
    "📍 Server running on port " +:+ shown_port e;
    "🌐 Access at: http://localhost:" +:+ shown_port e;
    "🔧 Environment:";
    "   - Region: " +:+ Js.or_else (AWS_REGION e) "us-east-1";
    "   - S3 Bucket: " +:+ Js.or_else (BUCKET_NAME (vars e)) "NOT SET";
    "   - Together API Key: "
      +:+ (if Js.truthy (TOGETHER_API_KEY (vars e)) then "SET ✓"
           else "NOT SET ✗");
    "=====================================";
    "" ].

(** The start-up environment [e] with another credential. *)
Definition with_key (e : StartEnv) (k : option string) : StartEnv :=
  {| vars := {| TOGETHER_API_KEY := k; BUCKET_NAME := BUCKET_NAME (vars e) |};
     PORT := PORT e; AWS_REGION := AWS_REGION e |}.

(** ** Test doubles

    A three-byte upload named [a.png], a complete configuration, and
    worlds in which the services answer in fixed ways. *)
Module Scenario.

Definition png : File :=
  {| originalname := "a.png"; mimetype := "image/png";
     buffer := [x89; x50; x4e]; size := 3 |}.

Definition readme : File :=
  {| originalname := "README"; mimetype := "image/png";
     buffer := [x89; x50; x4e]; size := 3 |}.

Definition upload (f : File) : Request := {| file := Some f |}.

Definition empty_request : Request := {| file := None |}.

Definition configured : Env :=
  {| TOGETHER_API_KEY := Some "secret"; BUCKET_NAME := Some "ocr-bucket" |}.

Definition no_key : Env :=
  {| TOGETHER_API_KEY := None; BUCKET_NAME := Some "ocr-bucket" |}.

Definition idle : State :=
  {| ticks := 0; sends := 0; store := ∅; tmp := ∅; trace := [] |}.

Definition at_0 : TimeValue := {| ms := 0; ms_range := eq_refl |}.
Definition at_2000 : TimeValue := {| ms := 2000; ms_range := eq_refl |}.
Definition at_17 : TimeValue := {| ms := 17; ms_range := eq_refl |}.

(** The key is stamped at 17 ms; the inference call starts at 0 ms and
    ends at 2000 ms. *)
Definition clock3 (n : nat) : TimeValue :=
  match n with
  | O => at_17
  | S O => at_0
  | _ => at_2000
  end.

Definition answer (s : option string) : ChatCompletion :=
  {| choices := [{| choice_message := Some {| content := s |} |}] |}.

Definition RateLimited : JsError := {| message := Some "RateLimited" |}.
Definition AccessDenied : JsError := {| message := Some "AccessDenied" |}.

(** The clock is set back during the inference call: it starts at
    2000 ms and ends at 0 ms. *)
Definition clock_set_back (n : nat) : TimeValue :=
  match n with
  | O => at_17
  | S O => at_2000
  | _ => at_0
  end.

(** Both services work and the extracted text is [md]. *)
Definition happy (md : string) : World :=
  {| clock := clock3;
     s3 := fun _ _ => None;
     chat := fun _ => inr (answer (Some md));
     llama_ocr := fun _ _ => inr md;
     fs_write := fun _ => None;
     fs_unlink := fun _ => None |}.

(** The inference service throws. *)
Definition throttled : World :=
  {| clock := clock3;
     s3 := fun _ _ => None;
     chat := fun _ => inl RateLimited;
     llama_ocr := fun _ _ => inl RateLimited;
     fs_write := fun _ => None;
     fs_unlink := fun _ => None |}.

(** The store accepts the first write and rejects the second. *)
Definition second_write_rejected : World :=
  {| clock := clock3;
     s3 := fun n _ => match n with S O => Some AccessDenied | _ => None end;
     chat := fun _ => inr (answer (Some "# Title"));
     llama_ocr := fun _ _ => inr "# Title";
     fs_write := fun _ => None;
     fs_unlink := fun _ => None |}.

(** The successful runs of the two variants for [a.png] and of
    [server.js] for [README]. *)
Definition title_run : list Event :=
  events (post_api_ocr (happy "# Title") configured (upload png)) idle.

Definition title_tmp_run : list Event :=
  events (post_api_ocr_tmp (happy "# Title") configured (upload png)) idle.

Definition readme_run : M unit :=
  post_api_ocr (happy "# Title") configured (upload readme).

(** Both services work while the clock is set back. *)
Definition set_back : World :=
  {| clock := clock_set_back;
     s3 := fun _ _ => None;
     chat := fun _ => inr (answer (Some "# Title"));
     llama_ocr := fun _ _ => inr "# Title";
     fs_write := fun _ => None;
     fs_unlink := fun _ => None |}.

Definition set_back_run : list Event :=
  events (post_api_ocr set_back configured (upload png)) idle.

(** The run of [server.js] in which the inference call is throttled. *)
Definition throttled_run : list Event :=
  events (post_api_ocr throttled configured (upload png)) idle.

(** The run of [server.js] in which the markdown write is rejected. *)
Definition rejected_run : list Event :=
  events (post_api_ocr second_write_rejected configured (upload png)) idle.

(** The run of the temp-file variant in which the library returns the
    empty text. *)
Definition silent_run : list Event :=
  events (post_api_ocr_tmp (happy "") configured (upload png)) idle.

(** A start-up environment with a credential and nothing else. *)
Definition only_key : StartEnv :=
  {| vars := {| TOGETHER_API_KEY := Some "secret"; BUCKET_NAME := None |};
     PORT := None; AWS_REGION := None |}.

(** A process that has served uploads before: the store and the
    temporary directory are not empty. *)
Definition old_object : S3Object :=
  {| obj_body := Text "# Old"; obj_type := "text/markdown" |}.

Definition busy : State :=
  {| ticks := 5; sends := 4;
     store := <[("ocr-bucket", "uploads/3-old.md") := old_object]> ∅;
     tmp := <["/tmp/3-old.png" := [x00]]> ∅;
     trace := [] |}.

(** The run of the temp-file variant in which the inference call is
    throttled. *)
Definition throttled_tmp_run : State :=
  run (post_api_ocr_tmp throttled configured (upload png)) idle.

End Scenario.

(** ** Further observations *)

(** The status code agrees with the envelope and with the request. *)
Definition status_ok (req : Request) (r : Response) : Prop :=
  (status r = 200%Z <-> success (envelope r) = true)
  /\ (status r = 400%Z <-> file req = None)
  /\ (status r = 200%Z \/ status r = 400%Z \/ status r = 500%Z).

(** The text sent for a thrown error: its message, unless that is
    missing or empty. *)
Definition error_text (e : JsError) : string :=
  match message e with
  | Some m => if String.eqb m "" then "Failed to process image" else m
  | None => "Failed to process image"
  end.

(** What a success envelope points to is in the store [objs]: the
    markdown under [outputFile], and the upload under [inputFile] unless
    the two keys are the same. *)
Definition resolves (objs : gmap (string * string) S3Object) (req : Request)
    (r : Response) : Prop :=
  match envelope r with
  | Failure _ => True
  | Success _ d =>
      objs !! (bucket d, outputFile d)
      = Some {| obj_body := Text (markdown d); obj_type := "text/markdown" |}
      /\ (outputFile d <> inputFile d ->
          exists f,
            file req = Some f
            /\ objs !! (bucket d, inputFile d)
               = Some {| obj_body := Buffer (buffer f);
                         obj_type := mimetype f |})
  end.

(** Events of the file system and of the OCR library, and calls of the
    chat-completions API. *)
Definition uses_fs (ev : Event) : bool :=
  match ev with
  | WriteFile _ _ _ | Unlink _ _ | Ocr _ _ => true
  | _ => false
  end.

Definition uses_chat (ev : Event) : bool :=
  match ev with
  | ChatCreate _ _ => true
  | _ => false
  end.

Definition is_clock (ev : Event) : bool :=
  match ev with
  | DateNow _ => true
  | _ => false
  end.

Definition is_send (ev : Event) : bool :=
  match ev with
  | Send _ _ => true
  | _ => false
  end.

(** The events other than the response: a reading of the clock or a call
    to a service. *)
Definition is_service (ev : Event) : bool :=
  match ev with
  | Respond _ => false
  | _ => true
  end.

(** The number of events of a kind. *)
Definition count (p : Event -> bool) (evs : list Event) : nat :=
  length (filter (fun ev => p ev = true) evs).

(** The OCR library is called on the staged upload with the configured
    key. *)
Definition ocr_call_ok (w : World) (env : Env) (req : Request) (st : State)
    (ev : Event) : Prop :=
  match ev with
  | Ocr a r =>
      exists f,
        file req = Some f
        /\ filePath a = tempPath (clock w (ticks st)) f
        /\ TOGETHER_API_KEY env = Some (apiKey a)
        /\ apiKey a <> ""
        /\ r = llama_ocr w a (Some (buffer f))
  | _ => True
  end.

(** * Properties *)

#[local] Arguments s3Key : simpl never.
#[local] Arguments tempPath : simpl never.
#[local] Arguments mdKey : simpl never.
#[local] Arguments elapsed : simpl never.
#[local] Arguments chat_request : simpl never.
#[local] Arguments result : simpl never.
#[local] Arguments Js.or_else : simpl never.
#[local] Arguments Js.truthy : simpl never.
#[local] Arguments Js.replace_ext : simpl never.
#[local] Arguments with_md_extension : simpl never.

Ltac exec :=
  unfold run, events, post_api_ocr, post_api_ocr_tmp, try_catch, bind, ret,
    throw, Date_now, uploadToS3, s3Client_send,
    together_chat_completions_create, ocr, fs_writeFile, fs_unlink_file,
    res_json, res_status_json, on_error, log,
    no_file, no_credential, no_bucket, failed, ok, image_put, markdown_put,
    extracted, ocr_args, cleaned, staged, bucketName, t0, t1, t2, respond,
    put, after, stored in *.

Ltac finish_path := exec; simpl; rewrite <- ?app_assoc; reflexivity.

(** Every run of [server.js] takes one of the seven paths. *)
Lemma post_api_ocr_paths w env req st :
  server_path w env req st (run (post_api_ocr w env req) st).
Proof.
  destruct (file req) as [f|] eqn:Hf.
  2: { apply path_no_file; [assumption|]. exec. rewrite Hf. reflexivity. }
  destruct (Js.truthy (TOGETHER_API_KEY env)) eqn:Hkey.
  2: { eapply path_no_credential; eauto. exec. rewrite Hf, Hkey. reflexivity. }
  destruct (Js.truthy (BUCKET_NAME env)) eqn:Hb.
  2: { eapply path_no_bucket; eauto. exec. rewrite Hf, Hkey, Hb. reflexivity. }
  assert (Hv : valid env req = true) by (unfold valid; rewrite Hf, Hkey, Hb; reflexivity).
  destruct (s3 w (sends st) (image_put w env st f)) as [e|] eqn:H1.
  { eapply path_image_rejected; eauto.
    exec. rewrite Hf, Hkey, Hb. simpl. rewrite H1. finish_path. }
  destruct (chat w (chat_request f)) as [e|c] eqn:H2.
  { eapply path_inference_failed; eauto.
    exec. rewrite Hf, Hkey, Hb. simpl. rewrite H1. simpl. rewrite H2.
    finish_path. }
  destruct (s3 w (S (sends st)) (markdown_put w env st f (extracted c)))
    as [e|] eqn:H3.
  { eapply path_markdown_rejected; eauto.
    exec. rewrite Hf, Hkey, Hb. simpl. rewrite H1. simpl. rewrite H2. simpl.
    rewrite H3. finish_path. }
  eapply path_success; eauto.
  exec. rewrite Hf, Hkey, Hb. simpl. rewrite H1. simpl. rewrite H2. simpl.
  rewrite H3. finish_path.
Qed.

(** Every run of the temp-file variant takes one of the eight paths. *)
Lemma post_api_ocr_tmp_paths w env req st :
  tmp_path w env req st (run (post_api_ocr_tmp w env req) st).
Proof.
  destruct (file req) as [f|] eqn:Hf.
  2: { apply tpath_no_file; [assumption|]. exec. rewrite Hf. reflexivity. }
  destruct (Js.truthy (TOGETHER_API_KEY env)) eqn:Hkey.
  2: { eapply tpath_no_credential; eauto. exec. rewrite Hf, Hkey. reflexivity. }
  destruct (Js.truthy (BUCKET_NAME env)) eqn:Hb.
  2: { eapply tpath_no_bucket; eauto. exec. rewrite Hf, Hkey, Hb. reflexivity. }
  assert (Hv : valid env req = true) by (unfold valid; rewrite Hf, Hkey, Hb; reflexivity).
  destruct (fs_write w (tempPath (t0 w st) f)) as [e|] eqn:H0.
  { eapply tpath_write_failed; eauto.
    exec. rewrite Hf, Hkey, Hb. simpl. rewrite H0. finish_path. }
  destruct (s3 w (sends st) (image_put w env st f)) as [e|] eqn:H1.
  { eapply tpath_image_rejected; eauto.
    exec. rewrite Hf, Hkey, Hb. simpl. rewrite H0. simpl. rewrite H1.
    finish_path. }
  destruct (llama_ocr w (ocr_args w env st f) (Some (buffer f))) as [e|md] eqn:H2.
  { eapply tpath_inference_failed; eauto.
    exec. rewrite Hf, Hkey, Hb. simpl. rewrite H0. simpl. rewrite H1. simpl.
    rewrite lookup_insert_eq, H2. finish_path. }
  destruct (s3 w (S (sends st)) (markdown_put w env st f md)) as [e|] eqn:H3.
  { eapply tpath_markdown_rejected; eauto.
    exec. rewrite Hf, Hkey, Hb. simpl. rewrite H0. simpl. rewrite H1. simpl.
    rewrite lookup_insert_eq, H2. simpl. rewrite H3. finish_path. }
  eapply tpath_success; eauto.
  exec. rewrite Hf, Hkey, Hb. simpl. rewrite H0. simpl. rewrite H1. simpl.
  rewrite lookup_insert_eq, H2. simpl. rewrite H3. simpl.
  rewrite lookup_insert_eq.
  destruct (fs_unlink w _); finish_path.
Qed.

Lemma events_after h st n k objs files evs :
  run h st = after st n k objs files evs -> events h st = evs.
Proof.
  intros H. unfold events. rewrite H. unfold after. simpl.
  apply drop_app_length.
Qed.

(** ** The validator *)

(** C2. The validator checks the image payload, then the credential,
    then the bucket; on the first failing check both variants answer with
    the corresponding failure envelope (400 for a missing file, 500 for a
    missing credential or bucket) and do nothing else: no clock reading,
    no send to the object store, no inference call, no file written, and
    the store and the file system are as they were. *)
Theorem validator_short_circuits w env req st e :
  validate env req = Some e ->
  run (post_api_ocr w env req) st
    = after st 0 0 (store st) (tmp st) [Respond (rejection e)]
  /\ run (post_api_ocr_tmp w env req) st
    = after st 0 0 (store st) (tmp st) [Respond (rejection e)]
  /\ status (rejection e) = match e with MissingFile => 400 | _ => 500 end%Z
  /\ success (envelope (rejection e)) = false.
Proof.
  unfold validate. intros H.
  destruct (file req) as [f|] eqn:Hf.
  - destruct (Js.truthy (TOGETHER_API_KEY env)) eqn:Hkey; simpl in H.
    + destruct (Js.truthy (BUCKET_NAME env)) eqn:Hb; simpl in H; [discriminate|].
      injection H as <-.
      repeat split; exec; rewrite Hf, Hkey, Hb; reflexivity.
    + injection H as <-.
      repeat split; exec; rewrite Hf, Hkey; reflexivity.
  - injection H as <-.
    repeat split; exec; rewrite Hf; reflexivity.
Qed.

Lemma validator_short_circuits_witness :
  validate Scenario.no_key (Scenario.upload Scenario.png)
    = Some MissingCredential
  /\ events (post_api_ocr (Scenario.happy "# Title") Scenario.no_key
               (Scenario.upload Scenario.png)) Scenario.idle
      = [Respond (rejection MissingCredential)].
Proof.
  split; [reflexivity|].
  eapply events_after.
  apply (validator_short_circuits (Scenario.happy "# Title") Scenario.no_key
           (Scenario.upload Scenario.png) Scenario.idle MissingCredential).
  reflexivity.
Defined.

(** ** Which objects are written *)

Ltac use_run E :=
  rewrite ?E; rewrite ?(events_after _ _ _ _ _ _ _ E).

Ltac server_cases w env req st :=
  let P := fresh "P" in
  pose proof (post_api_ocr_paths w env req st) as P;
  destruct P as
    [ ?Hf ?E | ?f ?Hf ?Hk ?E | ?f ?Hf ?Hk ?Hb ?E | ?f ?e ?Hf ?Hv ?H1 ?E
    | ?f ?e ?Hf ?Hv ?H1 ?H2 ?E | ?f ?c ?e ?Hf ?Hv ?H1 ?H2 ?H3 ?E
    | ?f ?c ?Hf ?Hv ?H1 ?H2 ?H3 ?E ];
  match goal with
  | E : run _ _ = after _ _ _ _ _ _ |- _ => use_run E
  end.

Ltac tmp_cases w env req st :=
  let P := fresh "P" in
  pose proof (post_api_ocr_tmp_paths w env req st) as P;
  destruct P as
    [ ?Hf ?E | ?f ?Hf ?Hk ?E | ?f ?Hf ?Hk ?Hb ?E | ?f ?e ?Hf ?Hv ?H0 ?E
    | ?f ?e ?Hf ?Hv ?H0 ?H1 ?E | ?f ?e ?Hf ?Hv ?H0 ?H1 ?H2 ?E
    | ?f ?md ?e ?Hf ?Hv ?H0 ?H1 ?H2 ?H3 ?E
    | ?f ?md ?Hf ?Hv ?H0 ?H1 ?H2 ?H3 ?E ];
  match goal with
  | E : run _ _ = after _ _ _ _ _ _ |- _ => use_run E
  end.

Lemma valid_no_file env req : file req = None -> valid env req = false.
Proof. unfold valid. intros ->. reflexivity. Qed.

Lemma valid_no_credential env req :
  Js.truthy (TOGETHER_API_KEY env) = false -> valid env req = false.
Proof. unfold valid. intros ->. destruct (file req); reflexivity. Qed.

Lemma valid_no_bucket env req :
  Js.truthy (BUCKET_NAME env) = false -> valid env req = false.
Proof.
  unfold valid. intros ->. destruct (file req); [apply andb_false_r | reflexivity].
Qed.

(** C1, as the code has it.  In [server.js] a markdown write is issued
    exactly when the inference call returned, and the markdown object is
    written exactly when, moreover, the store accepted that write, which
    is exactly when the request succeeded; the image write is issued
    exactly when validation passed, and the image object is written
    exactly when the store accepted it, whatever happens to the inference
    call afterwards; when the inference call throws, no markdown write is
    issued and the answer is one failure envelope. *)
Theorem writes_follow_the_pipeline w env req st :
  issued is_markdown (events (post_api_ocr w env req) st)
    = inference_succeeded (events (post_api_ocr w env req) st)
  /\ written is_markdown (events (post_api_ocr w env req) st)
    = inference_succeeded (events (post_api_ocr w env req) st)
        && negb (rejected is_markdown (events (post_api_ocr w env req) st))
  /\ written is_markdown (events (post_api_ocr w env req) st)
    = succeeded (events (post_api_ocr w env req) st)
  /\ issued is_image (events (post_api_ocr w env req) st) = valid env req
  /\ written is_image (events (post_api_ocr w env req) st)
    = valid env req
        && negb (rejected is_image (events (post_api_ocr w env req) st))
  /\ (inference_threw (events (post_api_ocr w env req) st) = true ->
      issued is_markdown (events (post_api_ocr w env req) st) = false
      /\ written is_markdown (events (post_api_ocr w env req) st) = false
      /\ failure_response (events (post_api_ocr w env req) st)).
Proof.
  server_cases w env req st.
  - rewrite valid_no_file by assumption. repeat split; try discriminate.
  - rewrite valid_no_credential by assumption. repeat split; try discriminate.
  - rewrite valid_no_bucket by assumption. repeat split; try discriminate.
  - rewrite Hv. repeat split; try discriminate.
  - rewrite Hv. repeat split; try reflexivity.
    unfold failure_response, failed, respond. simpl. eauto.
  - rewrite Hv. repeat split; try reflexivity; discriminate.
  - rewrite Hv. repeat split; try reflexivity; discriminate.
Qed.

(** C1, as stated, fails: when the store rejects the markdown write, the
    inference call has succeeded and yet no markdown object is written. *)
Lemma written_iff_inference_counterexample :
  ~ (written is_markdown Scenario.rejected_run = true
     <-> inference_succeeded Scenario.rejected_run = true).
Proof.
  assert (H : written is_markdown Scenario.rejected_run = false
              /\ inference_succeeded Scenario.rejected_run = true)
    by (vm_compute; split; reflexivity).
  destruct H as [H1 H2]. rewrite H1, H2. intros [_ H]. discriminate (H eq_refl).
Qed.

(** ** Storage keys *)

Section Extension.

Lemma no_dot_app a b : Js.no_dot (a +:+ b) = Js.no_dot a && Js.no_dot b.
Proof.
  induction a as [|c a IH]; simpl; [reflexivity|].
  rewrite IH. apply andb_assoc.
Qed.

Lemma split_last_dot_none s : split_last_dot s = None <-> Js.no_dot s = true.
Proof.
  induction s as [|c s IH]; simpl; [tauto|].
  destruct (split_last_dot s) as [[stem ext]|].
  - split; [discriminate|]. intros H. apply andb_true_iff in H as [_ H].
    apply IH in H. discriminate.
  - destruct IH as [IH _]. rewrite (IH eq_refl), andb_true_r.
    destruct (Ascii.eqb c "."); simpl; split; congruence.
Qed.

Lemma replace_ext_step c s :
  Js.replace_ext (String c s)
    = if Js.ext_match_here (String c s) then ".md"
      else String c (Js.replace_ext s).
Proof. reflexivity. Qed.

Lemma ext_match_here_step c s :
  Js.ext_match_here (String c s)
    = match s with
      | EmptyString => false
      | String _ _ => Ascii.eqb c "." && Js.no_dot s
      end.
Proof. destruct s; reflexivity. Qed.

(** The pattern of the code replaces exactly the final extension. *)
Lemma replace_ext_with_md_extension s : Js.replace_ext s = with_md_extension s.
Proof.
  unfold with_md_extension.
  induction s as [|c s IH]; [reflexivity|].
  rewrite replace_ext_step, ext_match_here_step, IH.
  cbn [split_last_dot].
  destruct (split_last_dot s) as [[stem ext]|] eqn:E.
  - assert (Hs : Js.no_dot s = false).
    { destruct (Js.no_dot s) eqn:N; [|reflexivity].
      apply split_last_dot_none in N. congruence. }
    rewrite Hs, andb_false_r. destruct s, ext; reflexivity.
  - assert (Hs : Js.no_dot s = true) by (apply split_last_dot_none; exact E).
    rewrite Hs, andb_true_r.
    destruct (Ascii.eqb c "."), s; reflexivity.
Qed.

Lemma split_last_dot_app stem ext :
  Js.no_dot ext = true ->
  split_last_dot (stem +:+ "." +:+ ext) = Some (stem, ext).
Proof.
  intros H. change ("." +:+ ext) with (String "." ext).
  induction stem as [|c stem IH].
  - change (split_last_dot (String "." ext) = Some ("", ext)).
    cbn [split_last_dot].
    apply split_last_dot_none in H. rewrite H. reflexivity.
  - change (split_last_dot (String c (stem +:+ String "." ext))
            = Some (String c stem, ext)).
    cbn [split_last_dot]. rewrite IH. reflexivity.
Qed.

Lemma with_md_extension_ext stem ext :
  ext <> "" -> Js.no_dot ext = true ->
  with_md_extension (stem +:+ "." +:+ ext) = stem +:+ ".md".
Proof.
  intros Hne H. unfold with_md_extension.
  rewrite split_last_dot_app by exact H.
  destruct ext; [congruence | reflexivity].
Qed.

Lemma with_md_extension_no_dot s :
  Js.no_dot s = true -> with_md_extension s = s.
Proof.
  intros H. unfold with_md_extension.
  apply split_last_dot_none in H. rewrite H. reflexivity.
Qed.

Lemma no_dot_digits d : Js.no_dot (NilEmpty.string_of_uint d) = true.
Proof. induction d; simpl; auto. Qed.

Lemma no_dot_Number_toString n : Js.no_dot (Js.Number_toString n) = true.
Proof.
  unfold Js.Number_toString, NilZero.string_of_int, NilZero.string_of_uint.
  destruct (Z.to_int n) as [d|d]; destruct d; simpl; auto using no_dot_digits.
Qed.

Lemma append_assoc (a b c : string) : (a +:+ b) +:+ c = a +:+ b +:+ c.
Proof.
  induction a as [|x a IH]; [reflexivity|].
  change (String x ((a +:+ b) +:+ c) = String x (a +:+ b +:+ c)).
  rewrite IH. reflexivity.
Qed.

(** The dots of a key are those of the original name. *)
Lemma no_dot_s3Key t f : Js.no_dot (s3Key t f) = Js.no_dot (originalname f).
Proof.
  unfold s3Key. rewrite !no_dot_app, no_dot_Number_toString. reflexivity.
Qed.

Lemma mdKey_extension t f stem ext :
  originalname f = stem +:+ "." +:+ ext ->
  ext <> "" -> Js.no_dot ext = true ->
  mdKey (s3Key t f)
    = "uploads/" +:+ Js.Number_toString (ms t) +:+ "-" +:+ stem +:+ ".md".
Proof.
  intros Hn Hne Hd. unfold mdKey, s3Key.
  rewrite replace_ext_with_md_extension, Hn.
  replace ("uploads/" +:+ Js.Number_toString (ms t) +:+ "-" +:+ stem +:+ "." +:+ ext)
    with (("uploads/" +:+ Js.Number_toString (ms t) +:+ "-" +:+ stem) +:+ "." +:+ ext)
    by (rewrite !append_assoc; reflexivity).
  rewrite with_md_extension_ext by assumption.
  rewrite !append_assoc. reflexivity.
Qed.

Lemma mdKey_no_dot t f :
  Js.no_dot (originalname f) = true -> mdKey (s3Key t f) = s3Key t f.
Proof.
  intros H. unfold mdKey. rewrite replace_ext_with_md_extension.
  apply with_md_extension_no_dot. rewrite no_dot_s3Key. exact H.
Qed.

End Extension.

(** A request that passed validation did not take one of the three
    rejecting paths. *)
Ltac clash :=
  solve [ congruence
        | match goal with
          | Hv : valid ?env ?req = true, H : file ?req = None |- _ =>
              rewrite (valid_no_file env req H) in Hv; discriminate
          | Hv : valid ?env ?req = true,
            H : Js.truthy (TOGETHER_API_KEY ?env) = false |- _ =>
              rewrite (valid_no_credential env req H) in Hv; discriminate
          | Hv : valid ?env ?req = true,
            H : Js.truthy (BUCKET_NAME ?env) = false |- _ =>
              rewrite (valid_no_bucket env req H) in Hv; discriminate
          end ].

Ltac same_file :=
  match goal with
  | H : file ?req = Some ?f, H' : file ?req = Some ?g |- _ =>
      rewrite H in H'; injection H' as <-
  end.

Ltac one_response :=
  let r := fresh "r" in
  let msg := fresh "msg" in
  let d := fresh "d" in
  let Hr := fresh "Hr" in
  let Henv := fresh "Henv" in
  intros r msg d Hr Henv;
  first [ apply list_elem_of_singleton in Hr; subst r; simpl in Henv;
          first [ discriminate
                | unfold result in Henv; injection Henv as <- <-;
                  split; reflexivity ]
        | apply elem_of_nil in Hr; contradiction ].

(** C5. For every accepted upload, in both variants, the image is stored
    under [uploads/<timestamp>-<original name>] and the markdown under
    that key with its final extension replaced by [.md]: the keys of the
    writes, in order, are these two, the first belongs to the image and
    the second to the markdown, and the success envelope reports the same
    two keys.  For a name [stem.ext] the markdown key ends in
    [stem.md]. *)
Theorem storage_keys w env req st f :
  file req = Some f ->
  valid env req = true ->
  let key :=
    "uploads/" +:+ Js.Number_toString (ms (clock w (ticks st))) +:+ "-"
      +:+ originalname f in
  (forall evs,
      evs = events (post_api_ocr w env req) st
      \/ evs = events (post_api_ocr_tmp w env req) st ->
      (Key <$> sends_of evs) `prefix_of` [key; with_md_extension key]
      /\ (is_image <$> sends_of evs) `prefix_of` [true; false]
      /\ (forall r msg d,
            r ∈ responses evs -> envelope r = Success msg d ->
            inputFile d = key /\ outputFile d = with_md_extension key))
  /\ sends_of (events (post_api_ocr w env req) st) <> []
  /\ (forall stem ext,
        originalname f = stem +:+ "." +:+ ext ->
        ext <> "" -> Js.no_dot ext = true ->
        with_md_extension key
          = "uploads/" +:+ Js.Number_toString (ms (clock w (ticks st)))
              +:+ "-" +:+ stem +:+ ".md").
Proof.
  intros Hfile Hvalid key.
  change key with (s3Key (t0 w st) f).
  rewrite <- replace_ext_with_md_extension.
  change (Js.replace_ext (s3Key (t0 w st) f)) with (mdKey (s3Key (t0 w st) f)).
  clear key. split; [|split].
  - intros evs [-> | ->].
    + server_cases w env req st; try clash; same_file; simpl;
        (split; [by eexists | split; [by eexists | one_response]]).
    + tmp_cases w env req st; try clash; same_file; simpl;
        (split; [by eexists | split; [by eexists | one_response]]).
  - server_cases w env req st; try clash; discriminate.
  - intros stem ext Hn Hne Hd.
    apply (mdKey_extension (clock w (ticks st)) f stem ext Hn Hne Hd).
Qed.

Lemma storage_keys_witness :
  (Key <$> sends_of Scenario.title_run)
    `prefix_of` ["uploads/17-a.png"; with_md_extension "uploads/17-a.png"]
  /\ (Key <$> sends_of Scenario.title_tmp_run)
    `prefix_of` ["uploads/17-a.png"; with_md_extension "uploads/17-a.png"]
  /\ with_md_extension "uploads/17-a.png" = "uploads/17-a.md".
Proof.
  destruct (storage_keys (Scenario.happy "# Title") Scenario.configured
              (Scenario.upload Scenario.png) Scenario.idle Scenario.png
              eq_refl eq_refl) as [H1 [_ H3]].
  split; [|split].
  - apply (H1 Scenario.title_run). left. reflexivity.
  - apply (H1 Scenario.title_tmp_run). right. reflexivity.
  - apply (H3 "a" "png"); [reflexivity | discriminate | reflexivity].
Defined.

(** C6. On every successful request, in both variants, exactly two
    commands are sent to the object store and both are accepted: the
    first carries the uploaded bytes with the content type of the upload,
    the second carries content type [text/markdown], and the key of the
    second is the key of the first with its final extension replaced by
    [.md]. *)
Theorem two_writes_on_success w env req st evs :
  evs = events (post_api_ocr w env req) st
  \/ evs = events (post_api_ocr_tmp w env req) st ->
  succeeded evs = true ->
  exists f image markdown,
    file req = Some f
    /\ sends_of evs = [image; markdown]
    /\ accepted_sends evs = [image; markdown]
    /\ Body image = Buffer (buffer f)
    /\ ContentType image = mimetype f
    /\ ContentType markdown = "text/markdown"
    /\ Key markdown = with_md_extension (Key image)
    /\ Bucket markdown = Bucket image.
Proof.
  intros [-> | ->].
  - server_cases w env req st; try discriminate. intros _.
    exists f, (image_put w env st f), (markdown_put w env st f (extracted c)).
    repeat split; try assumption.
    simpl. unfold mdKey. apply replace_ext_with_md_extension.
  - tmp_cases w env req st; try discriminate. intros _.
    exists f, (image_put w env st f), (markdown_put w env st f md).
    repeat split; try assumption.
    simpl. unfold mdKey. apply replace_ext_with_md_extension.
Qed.

Lemma two_writes_on_success_witness :
  exists f image markdown,
    file (Scenario.upload Scenario.png) = Some f
    /\ sends_of Scenario.title_run = [image; markdown]
    /\ accepted_sends Scenario.title_run = [image; markdown]
    /\ Body image = Buffer (buffer f)
    /\ ContentType image = mimetype f
    /\ ContentType markdown = "text/markdown"
    /\ Key markdown = with_md_extension (Key image)
    /\ Bucket markdown = Bucket image.
Proof.
  apply (two_writes_on_success (Scenario.happy "# Title") Scenario.configured
           (Scenario.upload Scenario.png) Scenario.idle Scenario.title_run).
  - left. reflexivity.
  - vm_compute. reflexivity.
Defined.

(** C9. For an original name without a dot the markdown key equals the
    image key, so that on a successful request, in both variants, the
    markdown write goes to the bucket and key of the image write; the
    object left under that key is the markdown text, with content type
    [text/markdown], in place of the image. *)
Theorem extensionless_name_overwrites_image w env req st f :
  file req = Some f ->
  Js.no_dot (originalname f) = true ->
  (forall t, mdKey (s3Key t f) = s3Key t f)
  /\ forall h,
      h = post_api_ocr w env req \/ h = post_api_ocr_tmp w env req ->
      succeeded (events h st) = true ->
      exists image markdown md,
        sends_of (events h st) = [image; markdown]
        /\ accepted_sends (events h st) = [image; markdown]
        /\ is_image image = true
        /\ is_markdown markdown = true
        /\ Body markdown = Text md
        /\ Bucket markdown = Bucket image
        /\ Key markdown = Key image
        /\ store (run h st) !! (Bucket image, Key image)
           = Some {| obj_body := Text md; obj_type := "text/markdown" |}.
Proof.
  intros Hfile Hdot. split; [intros t; apply mdKey_no_dot, Hdot|].
  intros h [-> | ->].
  - server_cases w env req st; try discriminate. intros _. same_file.
    exists (image_put w env st f), (markdown_put w env st f (extracted c)),
      (extracted c).
    repeat split; try (simpl; apply mdKey_no_dot, Hdot).
    unfold after, stored. simpl. rewrite mdKey_no_dot by exact Hdot.
    apply lookup_insert_eq.
  - tmp_cases w env req st; try discriminate. intros _. same_file.
    exists (image_put w env st f), (markdown_put w env st f md), md.
    repeat split; try (simpl; apply mdKey_no_dot, Hdot).
    unfold after, stored. simpl. rewrite mdKey_no_dot by exact Hdot.
    apply lookup_insert_eq.
Qed.

Lemma extensionless_name_overwrites_image_witness :
  Js.no_dot (originalname Scenario.readme) = true
  /\ mdKey (s3Key Scenario.at_17 Scenario.readme)
     = s3Key Scenario.at_17 Scenario.readme
  /\ exists image markdown md,
      sends_of (events Scenario.readme_run Scenario.idle) = [image; markdown]
      /\ accepted_sends (events Scenario.readme_run Scenario.idle)
         = [image; markdown]
      /\ is_image image = true
      /\ is_markdown markdown = true
      /\ Body markdown = Text md
      /\ Bucket markdown = Bucket image
      /\ Key markdown = Key image
      /\ store (run Scenario.readme_run Scenario.idle)
           !! (Bucket image, Key image)
         = Some {| obj_body := Text md; obj_type := "text/markdown" |}.
Proof.
  split; [reflexivity|].
  destruct (extensionless_name_overwrites_image (Scenario.happy "# Title")
              Scenario.configured (Scenario.upload Scenario.readme)
              Scenario.idle Scenario.readme eq_refl eq_refl) as [H1 H2].
  split; [apply H1|].
  apply (H2 Scenario.readme_run).
  - left. reflexivity.
  - vm_compute. reflexivity.
Defined.

(** ** The placeholder for an empty extraction *)

Lemma or_else_falsy v d : Js.truthy v = false -> Js.or_else v d = d.
Proof. unfold Js.or_else. intros ->. reflexivity. Qed.

Lemma or_else_truthy s d : s <> "" -> Js.or_else (Some s) d = s.
Proof.
  intros H. unfold Js.or_else, Js.truthy.
  destruct (String.eqb_spec s ""); [contradiction | reflexivity].
Qed.

(** C3, as the code has it.  In [server.js], when the completion carries
    no usable text (no first choice, no message, a null or an empty
    content) and the store accepts both writes, the request succeeds:
    the markdown of the success envelope is the literal
    [No text extracted] and a markdown object with exactly that content
    is written.  The temp-file variant has no placeholder: the text the
    library returned is answered and stored as it is. *)
Theorem no_text_placeholder w env req st f :
  file req = Some f ->
  valid env req = true ->
  s3 w (sends st) (image_put w env st f) = None ->
  (forall c,
      chat w (chat_request f) = inr c ->
      Js.truthy (first_content c) = false ->
      s3 w (S (sends st)) (markdown_put w env st f "No text extracted") = None ->
      succeeded (events (post_api_ocr w env req) st) = true
      /\ answered_markdown (events (post_api_ocr w env req) st)
         = ["No text extracted"]
      /\ accepted_sends (events (post_api_ocr w env req) st)
         = [image_put w env st f;
            markdown_put w env st f "No text extracted"]
      /\ store (run (post_api_ocr w env req) st)
           !! (bucketName env, mdKey (s3Key (t0 w st) f))
         = Some {| obj_body := Text "No text extracted";
                   obj_type := "text/markdown" |})
  /\ (forall md,
        fs_write w (tempPath (t0 w st) f) = None ->
        llama_ocr w (ocr_args w env st f) (Some (buffer f)) = inr md ->
        s3 w (S (sends st)) (markdown_put w env st f md) = None ->
        succeeded (events (post_api_ocr_tmp w env req) st) = true
        /\ answered_markdown (events (post_api_ocr_tmp w env req) st) = [md]
        /\ store (run (post_api_ocr_tmp w env req) st)
             !! (bucketName env, mdKey (s3Key (t0 w st) f))
           = Some {| obj_body := Text md; obj_type := "text/markdown" |}).
Proof.
  intros Hfile Hvalid Himg. split.
  - intros c0 Hchat Hnone Hmd.
    server_cases w env req st; try clash; same_file; try congruence.
    + rewrite Hchat in H2. injection H2 as <-.
      unfold extracted in H3. rewrite (or_else_falsy _ _ Hnone) in H3.
      congruence.
    + rewrite Hchat in H2. injection H2 as <-.
      unfold extracted. rewrite (or_else_falsy _ _ Hnone).
      repeat split. unfold after, stored. simpl. apply lookup_insert_eq.
  - intros md0 Hw Hocr Hmd.
    tmp_cases w env req st; try clash; same_file; try congruence.
    rewrite Hocr in H2. injection H2 as <-.
    repeat split. unfold after, stored. simpl. apply lookup_insert_eq.
Qed.

Lemma no_text_placeholder_witness :
  answered_markdown
    (events (post_api_ocr (Scenario.happy "") Scenario.configured
               (Scenario.upload Scenario.png)) Scenario.idle)
  = ["No text extracted"]
  /\ answered_markdown Scenario.silent_run = [""].
Proof.
  destruct (no_text_placeholder (Scenario.happy "") Scenario.configured
              (Scenario.upload Scenario.png) Scenario.idle Scenario.png
              eq_refl eq_refl eq_refl) as [H1 H2].
  split.
  - apply (H1 (Scenario.answer (Some ""))); reflexivity.
  - apply (H2 ""); reflexivity.
Defined.

(** C3, as stated, fails in the temp-file variant: the library returns
    the empty text and the answer carries the empty text, not the
    placeholder. *)
Lemma placeholder_counterexample :
  inference_succeeded Scenario.silent_run = true
  /\ answered_markdown Scenario.silent_run = [""]
  /\ answered_markdown Scenario.silent_run <> ["No text extracted"].
Proof.
  assert (H : answered_markdown Scenario.silent_run = [""])
    by (vm_compute; reflexivity).
  split; [vm_compute; reflexivity | split; [exact H |]].
  rewrite H. discriminate.
Qed.

(** ** The temporary file *)

(** C4 does not hold of the code.  In the temp-file variant, once the
    image has been staged, a request that does not succeed never attempts
    to remove the temporary file: no unlink is issued and the file is
    still there when the failure response has been sent. *)
Theorem temp_file_survives_failure w env req st f :
  file req = Some f ->
  valid env req = true ->
  fs_write w (tempPath (t0 w st) f) = None ->
  succeeded (events (post_api_ocr_tmp w env req) st) = false ->
  failure_response (events (post_api_ocr_tmp w env req) st)
  /\ unlinks (events (post_api_ocr_tmp w env req) st) = []
  /\ tmp (run (post_api_ocr_tmp w env req) st) !! tempPath (t0 w st) f
     = Some (buffer f).
Proof.
  intros Hfile Hvalid Hw.
  tmp_cases w env req st; try clash; same_file; try congruence; intros Hs;
    try discriminate;
    (split; [unfold failure_response, failed, respond; simpl; eauto |]);
    (split; [reflexivity |]);
    unfold after, staged; simpl; apply lookup_insert_eq.
Qed.

Lemma temp_file_survives_failure_witness :
  failure_response
    (events (post_api_ocr_tmp Scenario.throttled Scenario.configured
               (Scenario.upload Scenario.png)) Scenario.idle)
  /\ unlinks
       (events (post_api_ocr_tmp Scenario.throttled Scenario.configured
                  (Scenario.upload Scenario.png)) Scenario.idle) = []
  /\ tmp Scenario.throttled_tmp_run !! "/tmp/17-a.png" = Some [x89; x50; x4e].
Proof.
  apply (temp_file_survives_failure Scenario.throttled Scenario.configured
           (Scenario.upload Scenario.png) Scenario.idle Scenario.png);
    reflexivity.
Defined.

(** X18. The error of a failed removal is dropped: the events other than the
    removal itself, and so the response, do not depend on how [fs.unlink]
    behaves. *)
Lemma cleanup_error_is_swallowed w u env req st :
  responses (events (post_api_ocr_tmp (with_unlink w u) env req) st)
  = responses (events (post_api_ocr_tmp w env req) st).
Proof.
  tmp_cases (with_unlink w u) env req st;
    tmp_cases w env req st;
    try clash;
    unfold image_put, markdown_put, ocr_args, t0 in *; simpl in *;
    try congruence; try reflexivity.
  same_file.
  match goal with
  | H : llama_ocr _ _ _ = inr ?a, H' : llama_ocr _ _ _ = inr ?b |- _ =>
      rewrite H in H'; injection H' as <-
  end.
  reflexivity.
Qed.

(** ** The order of the stages *)

Lemma forward_rank a b : forward a b = true -> rank a < rank b.
Proof.
  destruct a as [| | | | |[]], b as [| | | | |[]]; simpl;
    intros H; try discriminate H; lia.
Qed.

Lemma chain_above a l :
  chain (a :: l) = true -> Forall (fun b => rank a < rank b) l.
Proof.
  revert a. induction l as [|b l IH]; intros a H; [constructor|].
  cbn [chain] in H. apply andb_true_iff in H as [Hab Hl].
  apply forward_rank in Hab. constructor; [exact Hab|].
  eapply Forall_impl; [apply IH, Hl|]. simpl. intros c Hc. lia.
Qed.

(** A chain of forward steps never enters a stage twice. *)
Lemma chain_NoDup l : chain l = true -> NoDup l.
Proof.
  induction l as [|a l IH]; intros H; [constructor|].
  constructor.
  - intros Hin. apply chain_above in H.
    rewrite Forall_forall in H. specialize (H a Hin). lia.
  - apply IH. destruct l as [|b l]; [reflexivity|].
    cbn [chain] in H. apply andb_true_iff in H as [_ H]. exact H.
Qed.

Lemma forward_only_intro evs :
  chain (history evs) = true ->
  last (history evs) = Some (Done (succeeded evs)) ->
  never_before image_uploaded inference_call evs = true ->
  never_before inference_returned markdown_upload evs = true ->
  fails_fast evs = true ->
  length (responses evs) = 1 ->
  forward_only evs.
Proof.
  intros H1 H2 H3 H4 H5 H6. unfold forward_only.
  repeat split; try assumption. apply chain_NoDup, H1.
Qed.

(** A run that sends anything to the store before answering a request
    that fails validation is not accepted. *)
Lemma validated_first_refuses_early_upload env req c o r :
  valid env req = false ->
  ~ validated_first env req [Send c o; Respond r].
Proof.
  intros Hv (H & _). destruct (H Hv) as (r' & E & _). discriminate E.
Qed.

(** C8. Every request, in both variants, goes through the stages in the
    order validate, upload image, invoke inference, upload markdown,
    done, forward only: a request that fails validation is answered with
    the failure response and nothing else happens, no service is used
    and no success is reported unless validation has passed, a request
    that passes validation uploads the image next, the inference service
    is never called before the image upload has completed, the markdown
    is never uploaded before the inference call has completed, a failing
    stage leads directly to the failure response, and no stage is entered
    twice. *)
Theorem stages_are_forward_only w env req st :
  (forward_only (events (post_api_ocr w env req) st)
   /\ validated_first env req (events (post_api_ocr w env req) st))
  /\ (forward_only (events (post_api_ocr_tmp w env req) st)
      /\ validated_first env req (events (post_api_ocr_tmp w env req) st)).
Proof.
  split.
  - server_cases w env req st;
      (split; [apply forward_only_intro; reflexivity|]);
      unfold validated_first;
      first [ rewrite valid_no_file by assumption
            | rewrite valid_no_credential by assumption
            | rewrite valid_no_bucket by assumption
            | match goal with H : valid env req = true |- _ => rewrite H end ];
      (split; [|split]);
      try (intros; discriminate);
      try (intros _; eexists; split; reflexivity);
      try (intros _; simpl; eexists; reflexivity);
      repeat constructor; intros; discriminate.
  - tmp_cases w env req st;
      (split; [apply forward_only_intro; reflexivity|]);
      unfold validated_first;
      first [ rewrite valid_no_file by assumption
            | rewrite valid_no_credential by assumption
            | rewrite valid_no_bucket by assumption
            | match goal with H : valid env req = true |- _ => rewrite H end ];
      (split; [|split]);
      try (intros; discriminate);
      try (intros _; eexists; split; reflexivity);
      try (intros _; simpl; first [reflexivity | eexists; reflexivity]);
      repeat constructor; intros; discriminate.
Qed.

(** ** The two variants side by side *)

(** C10, as the code has it.  For every request and the same behaviour
    of the clock, the store and the inference service, both variants send
    the same response, provided the temp-file variant can stage the image
    and the extracted text is not empty. *)
Theorem variants_agree w env req st :
  (forall f, file req = Some f -> fs_write w (tempPath (t0 w st) f) = None) ->
  (forall f, file req = Some f ->
     match chat w (chat_request f),
           llama_ocr w (ocr_args w env st f) (Some (buffer f)) with
     | inl e1, inl e2 => e1 = e2
     | inr c, inr md => first_content c = Some md /\ md <> ""
     | _, _ => False
     end) ->
  responses (events (post_api_ocr w env req) st)
  = responses (events (post_api_ocr_tmp w env req) st).
Proof.
  intros Hstage Hsame.
  server_cases w env req st; tmp_cases w env req st;
    try clash; try same_file; try congruence; try reflexivity;
    specialize (Hstage _ Hf); specialize (Hsame _ Hf);
    try congruence;
    repeat match goal with
           | H : chat _ _ = _ |- _ => rewrite H in Hsame
           | H : llama_ocr _ _ _ = _ |- _ => rewrite H in Hsame
           end;
    try contradiction;
    match type of Hsame with
    | _ /\ _ =>
        let Hc := fresh "Hc" in
        let Hne := fresh "Hne" in
        destruct Hsame as [Hc Hne];
        unfold extracted in *;
        rewrite Hc in *; rewrite (or_else_truthy _ _ Hne) in *
    | _ = _ => subst
    | _ => idtac
    end;
    try congruence;
    repeat match goal with
           | H : ?x = Some ?a, H' : ?x = Some ?b |- _ =>
               rewrite H in H'; injection H' as <-
           end;
    reflexivity.
Qed.

Lemma variants_agree_witness :
  responses
    (events (post_api_ocr (Scenario.happy "# Title") Scenario.configured
               (Scenario.upload Scenario.png)) Scenario.idle)
  = responses
      (events (post_api_ocr_tmp (Scenario.happy "# Title") Scenario.configured
                 (Scenario.upload Scenario.png)) Scenario.idle).
Proof.
  apply (variants_agree (Scenario.happy "# Title") Scenario.configured
           (Scenario.upload Scenario.png) Scenario.idle).
  - intros f _. reflexivity.
  - intros f _. simpl. split; [reflexivity | discriminate].
Defined.

(** C10, as stated, fails: with the same empty text from the inference
    service, [server.js] answers with the placeholder and the temp-file
    variant with the empty text. *)
Lemma variants_differ_on_empty_text :
  same_inference (Scenario.happy "")
  /\ responses
       (events (post_api_ocr (Scenario.happy "") Scenario.configured
                  (Scenario.upload Scenario.png)) Scenario.idle)
     <> responses Scenario.silent_run.
Proof.
  split; [intros q a bytes; reflexivity|].
  vm_compute. discriminate.
Qed.

(** ** The processing time *)

Module Float64_facts.

Import Float64.

Local Open Scope Q_scope.

Lemma pow2_pos k : 0 < 2 ^ k.
Proof. apply Qpower_0_lt. reflexivity. Qed.

Lemma pow2_add a b : 2 ^ (a + b) == 2 ^ a * 2 ^ b.
Proof. apply Qpower_plus. discriminate. Qed.

Lemma pow2_step k : 2 ^ (k + 1) == 2 * 2 ^ k.
Proof. rewrite pow2_add. change (2 ^ 1) with 2. ring. Qed.

Lemma pow2_le a b : (a <= b)%Z -> 2 ^ a <= 2 ^ b.
Proof. intros H. apply Qpower_le_compat_l; [exact H | discriminate]. Qed.

Lemma log2_bounds n :
  (0 < n)%Z ->
  2 ^ Z.log2 n <= inject_Z n /\ inject_Z n < 2 * 2 ^ Z.log2 n.
Proof.
  intros H. destruct (Z.log2_spec n H) as [Hlo Hhi].
  pose proof (Z.log2_nonneg n) as Hnn.
  split.
  - rewrite <- (Zpower_Qpower 2 _ Hnn). rewrite <- Zle_Qle. exact Hlo.
  - rewrite <- pow2_step, <- (Zpower_Qpower 2 (Z.log2 n + 1)) by lia.
    rewrite <- Zlt_Qlt. rewrite <- Z.add_1_r in Hhi. exact Hhi.
Qed.

Lemma ilog2_spec r :
  0 < r -> 2 ^ ilog2 r <= r /\ r < 2 * 2 ^ ilog2 r.
Proof.
  intros Hr. unfold ilog2.
  destruct r as [p q]. cbn [Qnum Qden].
  assert (Hp : (0 < p)%Z) by (unfold Qlt in Hr; simpl in Hr; lia).
  destruct (log2_bounds p Hp) as [Hp1 Hp2].
  destruct (log2_bounds (Zpos q) eq_refl) as [Hq1 Hq2].
  set (lp := Z.log2 p) in *. set (lq := Z.log2 (Zpos q)) in *.
  pose proof (pow2_pos lp) as HA. pose proof (pow2_pos lq) as HB.
  assert (Hk : 2 ^ (lp - lq) * 2 ^ lq == 2 ^ lp).
  { rewrite <- pow2_add. replace (lp - lq + lq)%Z with lp by lia. reflexivity. }
  assert (Hk1 : 2 ^ (lp - lq - 1) * 2 == 2 ^ (lp - lq)).
  { pose proof (pow2_step (lp - lq - 1)) as E.
    replace (lp - lq - 1 + 1)%Z with (lp - lq)%Z in E by lia.
    rewrite E. ring. }
  pose proof (pow2_pos (lp - lq)) as HK. pose proof (pow2_pos (lp - lq - 1)) as HK1.
  assert (Hpq : (p # q) * inject_Z (Zpos q) == inject_Z p).
  { rewrite (Qmake_Qdiv p q). field. discriminate. }
  assert (Hq0 : 0 < inject_Z (Zpos q)) by reflexivity.
  destruct (Qle_bool (2 ^ (lp - lq)) (p # q)) eqn:Hle;
    [apply Qle_bool_iff in Hle
    | assert (Hlt : p # q < 2 ^ (lp - lq))
        by (apply Qnot_le_lt; intros Hc; apply Qle_bool_iff in Hc; congruence);
      clear Hle];
    set (K := 2 ^ (lp - lq)) in *; set (K1 := 2 ^ (lp - lq - 1)) in *;
    set (A := 2 ^ lp) in *; set (B := 2 ^ lq) in *;
    set (P := inject_Z p) in *; set (D := inject_Z (Zpos q)) in *;
    set (r := p # q) in *;
    clearbody K K1 A B P D r; clear Hp lp lq.
  - split; [exact Hle|].
    apply Qnot_le_lt. intros Hc.
    assert (2 * K * D <= r * D) by (apply Qmult_le_compat_r; [exact Hc | lra]).
    assert (K * B <= K * D) by nra.
    lra.
  - split.
    + apply Qnot_lt_le. intros Hc.
      assert (r * D < K1 * D) by (apply Qmult_lt_compat_r; [lra | exact Hc]).
      assert (K1 * D < K1 * (2 * B)) by nra.
      assert (K1 * (2 * B) == K1 * 2 * B) by ring.
      assert (K1 * 2 * B == K * B) by (rewrite Hk1; reflexivity).
      lra.
    + lra.
Qed.



Lemma binade_eq r : binade r = Z.max (ilog2 r - 52) (-1074).
Proof. reflexivity. Qed.

Lemma binade_min r : (-1074 <= binade r)%Z.
Proof. rewrite binade_eq. lia. Qed.

Lemma binade_upper r : 0 < r -> r < 2 ^ (binade r + 53).
Proof.
  intros Hr. destruct (ilog2_spec r Hr) as [_ H].
  rewrite <- pow2_step in H.
  eapply Qlt_le_trans; [exact H|]. apply pow2_le. rewrite binade_eq. lia.
Qed.

Lemma binade_lower r :
  0 < r -> (-1074 < binade r)%Z -> 2 ^ (binade r + 52) <= r.
Proof.
  intros Hr Hb. destruct (ilog2_spec r Hr) as [H _].
  rewrite binade_eq in *.
  replace (Z.max (ilog2 r - 52) (-1074) + 52)%Z with (ilog2 r) by lia.
  exact H.
Qed.

Lemma binade_mono r r' : 0 < r -> r <= r' -> (binade r <= binade r')%Z.
Proof.
  intros Hr Hle.
  destruct (Z.le_gt_cases (binade r) (binade r')) as [H|H]; [exact H|].
  exfalso.
  pose proof (binade_min r') as Hmin.
  assert (Hlo : 2 ^ (binade r + 52) <= r) by (apply binade_lower; [exact Hr | lia]).
  assert (Hr' : 0 < r') by lra.
  pose proof (binade_upper r' Hr') as Hup.
  assert (Hpow : 2 ^ (binade r' + 53) <= 2 ^ (binade r + 52)) by (apply pow2_le; lia).
  lra.
Qed.

(** ** Rounding to an integer *)

Lemma round_half_even_cases r :
  round_half_even r = Qfloor r \/ round_half_even r = (Qfloor r + 1)%Z.
Proof.
  unfold round_half_even.
  destruct (Qcompare _ _); [destruct (Z.even _)| |]; auto.
Qed.

Lemma round_half_even_ge r k : inject_Z k <= r -> (k <= round_half_even r)%Z.
Proof.
  intros H. apply Qfloor_resp_le in H. rewrite Qfloor_Z in H.
  destruct (round_half_even_cases r) as [-> | ->]; lia.
Qed.

Lemma round_half_even_le r k : r <= inject_Z k -> (round_half_even r <= k)%Z.
Proof.
  intros H.
  destruct (Z.le_gt_cases (Qfloor r + 1) k) as [Hk|Hk].
  - destruct (round_half_even_cases r) as [-> | ->]; lia.
  - (* k <= floor r <= r <= k, so r is the integer k *)
    assert (Hfl : (Qfloor r <= k)%Z).
    { apply Qfloor_resp_le in H. rewrite Qfloor_Z in H. exact H. }
    assert (Qfloor r = k) by lia. subst k.
    assert (Hr : r == inject_Z (Qfloor r)).
    { apply Qle_antisym; [exact H | apply Qfloor_le]. }
    unfold round_half_even.
    destruct (Qcompare_spec (r - inject_Z (Qfloor r)) (1 # 2)) as [E|E|E];
      rewrite Hr in E at 1; [lra | lia | lra].
Qed.

Lemma round_half_even_mono r r' :
  r <= r' -> (round_half_even r <= round_half_even r')%Z.
Proof.
  intros H.
  pose proof (Qfloor_resp_le _ _ H) as Hfl.
  destruct (Z.eq_dec (Qfloor r) (Qfloor r')) as [E|E].
  - unfold round_half_even. rewrite <- E.
    destruct (Qcompare_spec (r - inject_Z (Qfloor r)) (1 # 2)) as [E1|E1|E1];
      destruct (Qcompare_spec (r' - inject_Z (Qfloor r)) (1 # 2)) as [E2|E2|E2];
      try lia; try lra; destruct (Z.even (Qfloor r)); lia.
  - destruct (round_half_even_cases r) as [-> | ->];
      destruct (round_half_even_cases r') as [-> | ->]; lia.
Qed.


(** ** Rounding to a double *)

Lemma value_Dy m e : value (Dy m e) = inject_Z m * 2 ^ e.
Proof. reflexivity. Qed.

Lemma scaled_le r r' e : r <= r' -> r / 2 ^ e <= r' / 2 ^ e.
Proof.
  intros H. unfold Qdiv. apply Qmult_le_compat_r; [exact H|].
  apply Qlt_le_weak, Qinv_lt_0_compat, pow2_pos.
Qed.

Lemma scaled_lt_pow r e k : r < 2 ^ (e + k) -> r / 2 ^ e < 2 ^ k.
Proof.
  intros H. rewrite pow2_add in H.
  pose proof (pow2_pos e) as He.
  apply Qlt_shift_div_r; [exact He|]. lra.
Qed.

Lemma scaled_ge_pow r e k : 2 ^ (e + k) <= r -> 2 ^ k <= r / 2 ^ e.
Proof.
  intros H. rewrite pow2_add in H.
  pose proof (pow2_pos e) as He.
  apply Qle_shift_div_l; [exact He|]. lra.
Qed.

Lemma RN_pos_mant_nonneg r : 0 < r -> (0 <= mant (RN_pos r))%Z.
Proof.
  intros Hr. unfold RN_pos. cbn [mant].
  apply round_half_even_ge. change (inject_Z 0) with 0.
  apply Qle_shift_div_l; [apply pow2_pos | lra].
Qed.

Lemma RN_pos_value_nonneg r : 0 < r -> 0 <= value (RN_pos r).
Proof.
  intros Hr. unfold value.
  apply Qmult_le_0_compat.
  - change 0 with (inject_Z 0). rewrite <- Zle_Qle. apply RN_pos_mant_nonneg, Hr.
  - apply Qlt_le_weak, pow2_pos.
Qed.

Lemma RN_pos_mono r r' :
  0 < r -> r <= r' -> value (RN_pos r) <= value (RN_pos r').
Proof.
  intros Hr Hle.
  assert (Hr' : 0 < r') by lra.
  pose proof (binade_mono r r' Hr Hle) as He.
  unfold RN_pos. rewrite !value_Dy.
  set (e := binade r) in *. set (e' := binade r') in *.
  destruct (Z.eq_dec e e') as [E|E].
  - rewrite <- E. apply Qmult_le_compat_r; [|apply Qlt_le_weak, pow2_pos].
    rewrite <- Zle_Qle. apply round_half_even_mono, scaled_le, Hle.
  - assert (Hm : (round_half_even (r / 2 ^ e) <= 2 ^ 53)%Z).
    { apply round_half_even_le. rewrite (Zpower_Qpower 2 53) by lia.
      apply Qlt_le_weak, scaled_lt_pow. apply binade_upper, Hr. }
    assert (Hm' : (2 ^ 52 <= round_half_even (r' / 2 ^ e'))%Z).
    { apply round_half_even_ge. rewrite (Zpower_Qpower 2 52) by lia.
      apply scaled_ge_pow. apply binade_lower; [exact Hr'|].
      pose proof (binade_min r). subst e e'. lia. }
    rewrite Zle_Qle in Hm, Hm'.
    rewrite (Zpower_Qpower 2 53) in Hm by lia.
    rewrite (Zpower_Qpower 2 52) in Hm' by lia.
    change (inject_Z 2) with 2 in *.
    pose proof (pow2_pos e) as Pe. pose proof (pow2_pos e') as Pe'.
    assert (H1 : 2 ^ 53 * 2 ^ e <= 2 ^ 52 * 2 ^ e').
    { rewrite <- !pow2_add. apply pow2_le. lia. }
    set (m := inject_Z (round_half_even (r / 2 ^ e))) in *.
    set (m' := inject_Z (round_half_even (r' / 2 ^ e'))) in *.
    assert (m * 2 ^ e <= 2 ^ 53 * 2 ^ e) by (apply Qmult_le_compat_r; lra).
    assert (2 ^ 52 * 2 ^ e' <= m' * 2 ^ e') by (apply Qmult_le_compat_r; lra).
    lra.
Qed.

Lemma value_RN_neg r : r < 0 -> value (RN r) == - value (RN_pos (- r)).
Proof.
  intros Hr. unfold RN.
  destruct (Qcompare_spec r 0) as [E|E|E]; [lra | | lra].
  unfold value. cbn [mant expo]. rewrite inject_Z_opp.
  generalize (2 ^ expo (RN_pos (- r))). intros p. ring.
Qed.

Lemma RN_pos_case r : 0 < r -> RN r = RN_pos r.
Proof.
  intros Hr. unfold RN. destruct (Qcompare_spec r 0) as [E|E|E]; [lra | lra | reflexivity].
Qed.

Lemma RN_zero r : r == 0 -> RN r = Dy 0 0.
Proof.
  intros Hr. unfold RN. destruct (Qcompare_spec r 0) as [E|E|E]; [reflexivity | lra | lra].
Qed.

Lemma RN_mono r r' : r <= r' -> value (RN r) <= value (RN r').
Proof.
  intros Hle.
  destruct (Qlt_le_dec r 0) as [Hn|Hp].
  - rewrite (value_RN_neg r Hn).
    assert (H0 : 0 <= value (RN_pos (- r))) by (apply RN_pos_value_nonneg; lra).
    destruct (Qlt_le_dec r' 0) as [Hn'|Hp'].
    + rewrite (value_RN_neg r' Hn').
      assert (value (RN_pos (- r')) <= value (RN_pos (- r)))
        by (apply RN_pos_mono; lra).
      lra.
    + destruct (Qle_lt_or_eq _ _ Hp') as [Hp''|Hz].
      * rewrite (RN_pos_case r' Hp'').
        pose proof (RN_pos_value_nonneg r' Hp''). lra.
      * rewrite (RN_zero r') by (symmetry; exact Hz).
        change (value (Dy 0 0)) with (0 * 1). lra.
  - destruct (Qle_lt_or_eq _ _ Hp) as [Hp'|Hz].
    + rewrite (RN_pos_case r Hp'), (RN_pos_case r') by lra.
      apply RN_pos_mono; assumption.
    + rewrite (RN_zero r) by (symmetry; exact Hz).
      change (value (Dy 0 0)) with (0 * 1).
      destruct (Qle_lt_or_eq _ _ Hle) as [Hlt|Heq].
      * rewrite (RN_pos_case r') by lra.
        pose proof (RN_pos_value_nonneg r'). lra.
      * rewrite (RN_zero r') by lra.
        change (value (Dy 0 0)) with (0 * 1). lra.
Qed.

Lemma RN_mant_nonneg r : 0 <= r -> (0 <= mant (RN r))%Z.
Proof.
  intros Hr. destruct (Qle_lt_or_eq _ _ Hr) as [Hp|Hz].
  - rewrite (RN_pos_case r Hp). apply RN_pos_mant_nonneg, Hp.
  - rewrite (RN_zero r) by (symmetry; exact Hz). reflexivity.
Qed.

(** ** The operations of the handler *)

Lemma value_sign x : (0 <= mant x)%Z <-> 0 <= value x.
Proof.
  unfold value. pose proof (pow2_pos (expo x)) as Hp.
  split; intros H.
  - apply Qmult_le_0_compat; [|lra].
    change 0 with (inject_Z 0). rewrite <- Zle_Qle. exact H.
  - destruct (Z.le_gt_cases 0 (mant x)) as [Hm|Hm]; [exact Hm|]. exfalso.
    assert (Hn : inject_Z (mant x) < 0)
      by (change 0 with (inject_Z 0); rewrite <- Zlt_Qlt; lia).
    assert (inject_Z (mant x) * 2 ^ expo x < 0 * 2 ^ expo x)
      by (apply Qmult_lt_compat_r; assumption).
    lra.
Qed.

Lemma nearest_hundredths_mono r r' :
  r <= r' -> (nearest_hundredths r <= nearest_hundredths r')%Z.
Proof. intros H. apply Qfloor_resp_le. lra. Qed.

Lemma nearest_hundredths_nonneg r : 0 <= r -> (0 <= nearest_hundredths r)%Z.
Proof.
  intros H. unfold nearest_hundredths.
  rewrite <- (Qfloor_Z 0). apply Qfloor_resp_le. change (inject_Z 0) with 0. lra.
Qed.

Lemma nearest_hundredths_comp r r' :
  r == r' -> nearest_hundredths r = nearest_hundredths r'.
Proof.
  intros H. unfold nearest_hundredths. apply Qfloor_comp. rewrite H. reflexivity.
Qed.

Lemma shown_hundredths_mono x x' :
  value x <= value x' -> (shown_hundredths x <= shown_hundredths x')%Z.
Proof.
  intros H. unfold shown_hundredths.
  pose proof (nearest_hundredths_nonneg (Qabs (value x)) (Qabs_nonneg _)) as Hn.
  pose proof (nearest_hundredths_nonneg (Qabs (value x')) (Qabs_nonneg _)) as Hn'.
  destruct (Z.ltb_spec (mant x) 0) as [Hx|Hx];
    destruct (Z.ltb_spec (mant x') 0) as [Hx'|Hx'].
  - assert (Hv : value x <= 0).
    { destruct (Qlt_le_dec 0 (value x)) as [Hc|Hc]; [|exact Hc].
      apply Qlt_le_weak, value_sign in Hc. lia. }
    assert (Hv' : value x' <= 0).
    { destruct (Qlt_le_dec 0 (value x')) as [Hc|Hc]; [|exact Hc].
      apply Qlt_le_weak, value_sign in Hc. lia. }
    rewrite (nearest_hundredths_comp _ _ (Qabs_neg _ Hv)),
      (nearest_hundredths_comp _ _ (Qabs_neg _ Hv')).
    assert ((nearest_hundredths (- value x') <= nearest_hundredths (- value x))%Z)
      by (apply nearest_hundredths_mono; lra).
    lia.
  - lia.
  - apply value_sign in Hx.
    assert (Hv' : value x' <= 0).
    { destruct (Qlt_le_dec 0 (value x')) as [Hc|Hc]; [|exact Hc].
      apply Qlt_le_weak, value_sign in Hc. lia. }
    assert (E : value x == 0) by lra.
    assert (E' : value x' == 0) by lra.
    assert (Ea : Qabs (value x) == 0) by (rewrite E; reflexivity).
    assert (Ea' : Qabs (value x') == 0) by (rewrite E'; reflexivity).
    rewrite (nearest_hundredths_comp _ _ Ea), (nearest_hundredths_comp _ _ Ea').
    reflexivity.
  - apply value_sign in Hx. apply value_sign in Hx'.
    rewrite (nearest_hundredths_comp _ _ (Qabs_pos _ Hx)),
      (nearest_hundredths_comp _ _ (Qabs_pos _ Hx')).
    apply nearest_hundredths_mono, H.
Qed.

Lemma of_int_mono a b :
  (a <= b)%Z -> value (of_int a) <= value (of_int b).
Proof. intros H. apply RN_mono. rewrite <- Zle_Qle. exact H. Qed.

Lemma sub_mono_l x x' y :
  value x <= value x' -> value (sub x y) <= value (sub x' y).
Proof. intros H. apply RN_mono. lra. Qed.

Lemma sub_mono_r x y y' :
  value y <= value y' -> value (sub x y') <= value (sub x y).
Proof. intros H. apply RN_mono. lra. Qed.

Lemma div_mono_l x x' y :
  0 < value y -> value x <= value x' -> value (div x y) <= value (div x' y).
Proof.
  intros Hy H. apply RN_mono. unfold Qdiv.
  apply Qmult_le_compat_r; [exact H|].
  apply Qlt_le_weak, Qinv_lt_0_compat, Hy.
Qed.

Lemma value_1000 : value (of_int 1000) == 1000.
Proof. vm_compute. reflexivity. Qed.

Lemma seconds_mono now now' start :
  (ms now <= ms now')%Z ->
  value (seconds now start) <= value (seconds now' start).
Proof.
  intros H. unfold seconds.
  apply div_mono_l; [rewrite value_1000; reflexivity|].
  apply sub_mono_l, of_int_mono, H.
Qed.

Lemma seconds_anti now start start' :
  (ms start <= ms start')%Z ->
  value (seconds now start') <= value (seconds now start).
Proof.
  intros H. unfold seconds.
  apply div_mono_l; [rewrite value_1000; reflexivity|].
  apply sub_mono_r, of_int_mono, H.
Qed.

Lemma seconds_nonneg now start :
  (ms start <= ms now)%Z -> (0 <= mant (seconds now start))%Z.
Proof.
  intros H. unfold seconds, div, sub.
  apply RN_mant_nonneg.
  apply Qle_shift_div_l; [rewrite value_1000; reflexivity|].
  rewrite Qmult_0_l. apply value_sign, RN_mant_nonneg.
  pose proof (of_int_mono _ _ H). lra.
Qed.

(** ** Exact results and the rounding error *)

Lemma pow2_lt_inv a b : 2 ^ a < 2 ^ b -> (a < b)%Z.
Proof. intros H. apply (Qpower_lt_compat_l_inv 2); [exact H | reflexivity]. Qed.

Lemma ilog2_unique r k :
  0 < r -> 2 ^ k <= r -> r < 2 * 2 ^ k -> ilog2 r = k.
Proof.
  intros Hr Hlo Hhi. destruct (ilog2_spec r Hr) as [Hlo' Hhi'].
  rewrite <- pow2_step in Hhi, Hhi'.
  assert (H1 : (k < ilog2 r + 1)%Z) by (apply pow2_lt_inv; lra).
  assert (H2 : (ilog2 r < k + 1)%Z) by (apply pow2_lt_inv; lra).
  lia.
Qed.

Lemma ilog2_comp r r' : 0 < r -> r == r' -> ilog2 r = ilog2 r'.
Proof.
  intros Hr E. symmetry. apply ilog2_unique.
  - rewrite <- E. exact Hr.
  - rewrite <- E. apply ilog2_spec, Hr.
  - rewrite <- E. apply ilog2_spec, Hr.
Qed.

Lemma round_half_even_comp r r' : r == r' -> round_half_even r = round_half_even r'.
Proof.
  intros E. unfold round_half_even.
  rewrite (Qfloor_comp _ _ E).
  assert (E' : r - inject_Z (Qfloor r') == r' - inject_Z (Qfloor r'))
    by (rewrite E; reflexivity).
  rewrite (Qcompare_comp _ _ E' (1 # 2) (1 # 2) (Qeq_refl _)). reflexivity.
Qed.

Lemma RN_pos_comp r r' : 0 < r -> r == r' -> RN_pos r = RN_pos r'.
Proof.
  intros Hr E. unfold RN_pos, binade.
  rewrite (ilog2_comp r r' Hr E).
  f_equal. apply round_half_even_comp. rewrite E. reflexivity.
Qed.

Lemma RN_comp r r' : r == r' -> RN r = RN r'.
Proof.
  intros E. unfold RN.
  rewrite (Qcompare_comp _ _ E 0 0 (Qeq_refl _)).
  destruct (Qcompare_spec r' 0) as [H|H|H]; [reflexivity | |].
  - rewrite (RN_pos_comp (- r) (- r')); [reflexivity | lra | rewrite E; reflexivity].
  - rewrite (RN_pos_comp r r'); [reflexivity | lra | exact E].
Qed.

Lemma round_half_even_Z k : round_half_even (inject_Z k) = k.
Proof.
  unfold round_half_even. rewrite Qfloor_Z.
  destruct (Qcompare_spec (inject_Z k - inject_Z k) (1 # 2)) as [H|H|H];
    [lra | reflexivity | lra].
Qed.

Lemma pow2_sub a b : 2 ^ a / 2 ^ b == 2 ^ (a - b).
Proof.
  pose proof (pow2_pos b) as Hb.
  assert (E : 2 ^ a == 2 ^ (a - b) * 2 ^ b).
  { rewrite <- pow2_add. replace (a - b + b)%Z with a by lia. reflexivity. }
  rewrite E. field. lra.
Qed.

Lemma pow2_Z k : (0 <= k)%Z -> 2 ^ k == inject_Z (2 ^ k).
Proof. intros H. rewrite (Zpower_Qpower 2 k H). reflexivity. Qed.

(** A rational that is a double is its own rounding. *)
Lemma RN_pos_exact m e :
  (0 < m < 2 ^ 53)%Z -> (-1074 <= e)%Z ->
  value (RN_pos (inject_Z m * 2 ^ e)) == inject_Z m * 2 ^ e.
Proof.
  intros Hm He.
  set (r := inject_Z m * 2 ^ e).
  pose proof (pow2_pos e) as Pe.
  assert (Hm0 : 0 < inject_Z m)
    by (change 0 with (inject_Z 0); rewrite <- Zlt_Qlt; lia).
  assert (Hm1 : inject_Z m < 2 ^ 53).
  { rewrite (pow2_Z 53) by lia. rewrite <- Zlt_Qlt. lia. }
  assert (Hr : 0 < r) by (unfold r; apply Qmult_lt_0_compat; assumption).
  assert (Hb : (binade r <= e)%Z).
  { unfold binade. destruct (ilog2_spec r Hr) as [Hlo _].
    assert (Hup : r < 2 ^ (53 + e)).
    { rewrite pow2_add. unfold r. apply Qmult_lt_compat_r; assumption. }
    assert ((ilog2 r < 53 + e)%Z) by (apply pow2_lt_inv; lra).
    lia. }
  unfold RN_pos. rewrite value_Dy.
  set (b := binade r) in *.
  assert (E : r / 2 ^ b == inject_Z (m * 2 ^ (e - b))).
  { unfold r. rewrite inject_Z_mult, <- (pow2_Z (e - b)) by lia.
    rewrite <- pow2_sub. pose proof (pow2_pos b). field. lra. }
  rewrite (round_half_even_comp _ _ E), round_half_even_Z.
  rewrite inject_Z_mult, <- (pow2_Z (e - b)) by lia.
  unfold r. rewrite <- Qmult_assoc, <- pow2_add.
  replace (e - b + b)%Z with e by lia. reflexivity.
Qed.

Lemma RN_exact m e :
  (Z.abs m < 2 ^ 53)%Z -> (-1074 <= e)%Z ->
  value (RN (inject_Z m * 2 ^ e)) == inject_Z m * 2 ^ e.
Proof.
  intros Hm He. pose proof (pow2_pos e) as Pe.
  destruct (Z.lt_trichotomy m 0) as [Hn|[Hz|Hp]].
  - assert (Hr : inject_Z m * 2 ^ e < 0).
    { assert (inject_Z m < 0)
        by (change 0 with (inject_Z 0); rewrite <- Zlt_Qlt; lia).
      assert (inject_Z m * 2 ^ e < 0 * 2 ^ e)
        by (apply Qmult_lt_compat_r; assumption).
      lra. }
    rewrite (value_RN_neg _ Hr).
    assert (E : - (inject_Z m * 2 ^ e) == inject_Z (- m) * 2 ^ e)
      by (rewrite inject_Z_opp; ring).
    assert (Hpos : 0 < - (inject_Z m * 2 ^ e)) by lra.
    rewrite (RN_pos_comp _ _ Hpos E), RN_pos_exact by lia.
    rewrite inject_Z_opp. ring.
  - subst m. rewrite RN_zero by ring. unfold value. simpl. ring.
  - assert (Hr : 0 < inject_Z m * 2 ^ e).
    { apply Qmult_lt_0_compat; [|exact Pe].
      change 0 with (inject_Z 0). rewrite <- Zlt_Qlt. lia. }
    rewrite (RN_pos_case _ Hr). apply RN_pos_exact; lia.
Qed.

Lemma of_int_exact n : (Z.abs n < 2 ^ 53)%Z -> value (of_int n) == inject_Z n.
Proof.
  intros H. unfold of_int.
  assert (E : inject_Z n == inject_Z n * 2 ^ 0) by (change (2 ^ 0) with 1; ring).
  rewrite (RN_comp _ _ E), RN_exact by lia.
  change (2 ^ 0) with 1. ring.
Qed.

Lemma sub_exact a b :
  (Z.abs a < 2 ^ 53)%Z -> (Z.abs b < 2 ^ 53)%Z -> (Z.abs (a - b) < 2 ^ 53)%Z ->
  value (sub (of_int a) (of_int b)) == inject_Z (a - b).
Proof.
  intros Ha Hb Hd. unfold sub.
  assert (E : value (of_int a) - value (of_int b) == inject_Z (a - b) * 2 ^ 0).
  { rewrite !of_int_exact by assumption. unfold Z.sub.
    rewrite inject_Z_plus, inject_Z_opp. change (2 ^ 0) with 1. ring. }
  rewrite (RN_comp _ _ E), RN_exact by lia.
  change (2 ^ 0) with 1. ring.
Qed.

Lemma round_half_even_error r :
  - (1 # 2) <= inject_Z (round_half_even r) - r <= 1 # 2.
Proof.
  pose proof (Qfloor_le r) as Hlo. pose proof (Qlt_floor r) as Hhi.
  rewrite inject_Z_plus in Hhi. change (inject_Z 1) with 1 in Hhi.
  unfold round_half_even.
  destruct (Qcompare_spec (r - inject_Z (Qfloor r)) (1 # 2)) as [E|E|E].
  - destruct (Z.even (Qfloor r)).
    + lra.
    + rewrite inject_Z_plus. change (inject_Z 1) with 1. lra.
  - lra.
  - rewrite inject_Z_plus. change (inject_Z 1) with 1. lra.
Qed.

(** The rounding error is at most half a unit in the last place. *)
Lemma RN_pos_error r :
  0 < r ->
  - (2 ^ binade r * (1 # 2)) <= value (RN_pos r) - r <= 2 ^ binade r * (1 # 2).
Proof.
  intros Hr. unfold RN_pos. rewrite value_Dy.
  set (b := binade r). pose proof (pow2_pos b) as Pb.
  pose proof (round_half_even_error (r / 2 ^ b)) as [Hlo Hhi].
  set (m := inject_Z (round_half_even (r / 2 ^ b))) in *.
  assert (E : r == r / 2 ^ b * 2 ^ b) by (field; lra).
  set (y := r / 2 ^ b) in *. clearbody m y.
  assert (H1 : (m - y) * 2 ^ b <= (1 # 2) * 2 ^ b)
    by (apply Qmult_le_compat_r; lra).
  assert (H2 : - (1 # 2) * 2 ^ b <= (m - y) * 2 ^ b)
    by (apply Qmult_le_compat_r; lra).
  assert (E1 : m * 2 ^ b - r == (m - y) * 2 ^ b) by (rewrite E at 1; ring).
  split; lra.
Qed.

Lemma binade_le r k :
  0 < r -> r < 2 ^ (k + 53) -> (-1074 <= k)%Z -> (binade r <= k)%Z.
Proof.
  intros Hr Hup Hk. unfold binade.
  destruct (ilog2_spec r Hr) as [Hlo _].
  assert ((ilog2 r < k + 53)%Z) by (apply pow2_lt_inv; lra).
  lia.
Qed.

Lemma milliseconds_error d :
  (Z.abs d < 2 ^ 53)%Z ->
  - (1 # 1024) <= value (RN (inject_Z d / 1000)) - inject_Z d / 1000 <= 1 # 1024.
Proof.
  intros Hd.
  assert (Hbound : forall p, (0 < p < 2 ^ 53)%Z ->
            - (1 # 1024) <= value (RN_pos (inject_Z p / 1000)) - inject_Z p / 1000
            <= 1 # 1024).
  { intros p Hp.
    assert (Hp0 : 0 < inject_Z p)
      by (change 0 with (inject_Z 0); rewrite <- Zlt_Qlt; lia).
    assert (Hp1 : inject_Z p < inject_Z (2 ^ 53)) by (rewrite <- Zlt_Qlt; lia).
    assert (Hr : 0 < inject_Z p / 1000) by (apply Qlt_shift_div_l; lra).
    assert (Hb : (binade (inject_Z p / 1000) <= -9)%Z).
    { apply binade_le; [exact Hr | | lia].
      apply Qlt_shift_div_r; [reflexivity|].
      eapply Qlt_le_trans; [exact Hp1|]. vm_compute. discriminate. }
    pose proof (RN_pos_error _ Hr) as [Hlo Hhi].
    assert (Hpow : 2 ^ binade (inject_Z p / 1000) <= 2 ^ (-9)) by (apply pow2_le, Hb).
    change (2 ^ (-9)) with (1 # 512) in Hpow.
    split; lra. }
  destruct (Z.lt_trichotomy d 0) as [Hn|[Hz|Hp]].
  - assert (Hr : inject_Z d / 1000 < 0).
    { apply Qlt_shift_div_r; [reflexivity|]. rewrite Qmult_0_l.
      change 0 with (inject_Z 0). rewrite <- Zlt_Qlt. exact Hn. }
    rewrite (value_RN_neg _ Hr).
    assert (E : - (inject_Z d / 1000) == inject_Z (- d) / 1000)
      by (rewrite inject_Z_opp; field).
    assert (Hpos : 0 < - (inject_Z d / 1000)) by lra.
    rewrite (RN_pos_comp _ _ Hpos E).
    destruct (Hbound (- d)%Z) as [Hlo Hhi]; [lia|].
    set (v := value (RN_pos (inject_Z (- d) / 1000))) in *. clearbody v.
    split; lra.
  - subst d. vm_compute. split; discriminate.
  - assert (Hr : 0 < inject_Z d / 1000).
    { apply Qlt_shift_div_l; [reflexivity|]. rewrite Qmult_0_l.
      change 0 with (inject_Z 0). rewrite <- Zlt_Qlt. exact Hp. }
    rewrite (RN_pos_case _ Hr). apply Hbound. lia.
Qed.

Lemma ms_bound (t : TimeValue) : (Z.abs (ms t) < 2 ^ 53)%Z.
Proof.
  pose proof (ms_range t) as H. apply Z.leb_le in H.
  eapply Z.le_lt_trans; [exact H|]. reflexivity.
Qed.

Lemma seconds_error now start :
  (Z.abs (ms now - ms start) < 2 ^ 53)%Z ->
  - (1 # 1024)
  <= value (seconds now start) - inject_Z (ms now - ms start) / 1000
  <= 1 # 1024.
Proof.
  intros Hd. unfold seconds, div.
  assert (E : value (sub (of_int (ms now)) (of_int (ms start)))
                / value (of_int 1000)
              == inject_Z (ms now - ms start) / 1000).
  { rewrite sub_exact by (try apply ms_bound; exact Hd).
    rewrite value_1000. reflexivity. }
  rewrite (RN_comp _ _ E). apply milliseconds_error, Hd.
Qed.

(** The hundredths shown are the milliseconds divided by ten, rounded to
    a nearest integer. *)
Lemma shown_hundredths_accurate now start :
  (Z.abs (ms now - ms start) < 2 ^ 53)%Z ->
  (Z.abs (10 * shown_hundredths (seconds now start) - (ms now - ms start)) <= 5)%Z.
Proof.
  intros Hd. pose proof (seconds_error now start Hd) as [Hlo Hhi].
  set (d := (ms now - ms start)%Z) in *.
  unfold shown_hundredths.
  set (x := seconds now start) in *.
  pose proof (Qfloor_le (100 * Qabs (value x) + (1 # 2))) as Hfl.
  pose proof (Qlt_floor (100 * Qabs (value x) + (1 # 2))) as Hfu.
  fold (nearest_hundredths (Qabs (value x))) in Hfl, Hfu.
  set (n := nearest_hundredths (Qabs (value x))) in *.
  rewrite inject_Z_plus in Hfu. change (inject_Z 1) with 1 in Hfu.
  assert (Hcut : forall a b : Z, inject_Z a < inject_Z b + 1 -> (a <= b)%Z).
  { intros a b H. change 1 with (inject_Z 1) in H.
    rewrite <- inject_Z_plus, <- Zlt_Qlt in H. lia. }
  clearbody n d x.
  assert (Eq : inject_Z d == 1000 * (inject_Z d / 1000)) by field.
  set (q := inject_Z d / 1000) in *. clearbody q.
  destruct (Z.ltb_spec (mant x) 0) as [Hx|Hx].
  - assert (Hv : value x <= 0).
    { destruct (Qlt_le_dec 0 (value x)) as [Hc|Hc]; [|exact Hc].
      apply Qlt_le_weak, value_sign in Hc. lia. }
    rewrite (Qabs_neg _ Hv) in Hfl, Hfu.
    assert (H1 : (10 * - n <= d + 5)%Z).
    { apply Hcut. rewrite !inject_Z_mult, inject_Z_opp, inject_Z_plus.
      change (inject_Z 10) with 10. change (inject_Z 5) with 5. lra. }
    assert (H2 : (d - 5 <= 10 * - n)%Z).
    { apply Hcut. unfold Z.sub.
      rewrite !inject_Z_mult, !inject_Z_plus, !inject_Z_opp.
      change (inject_Z 10) with 10. change (inject_Z 5) with 5. lra. }
    lia.
  - apply value_sign in Hx. rewrite (Qabs_pos _ Hx) in Hfl, Hfu.
    assert (H1 : (10 * n <= d + 5)%Z).
    { apply Hcut. rewrite !inject_Z_mult, inject_Z_plus.
      change (inject_Z 10) with 10. change (inject_Z 5) with 5. lra. }
    assert (H2 : (d - 5 <= 10 * n)%Z).
    { apply Hcut. unfold Z.sub.
      rewrite !inject_Z_mult, !inject_Z_plus, !inject_Z_opp.
      change (inject_Z 10) with 10. change (inject_Z 5) with 5. lra. }
    lia.
Qed.

End Float64_facts.

Section Digits.

Lemma length_append a b :
  String.length (a +:+ b) = String.length a + String.length b.
Proof.
  induction a as [|c a IH]; [reflexivity|].
  change (S (String.length (a +:+ b)) = S (String.length a + String.length b)).
  rewrite IH. reflexivity.
Qed.

Lemma all_digits_append a b :
  Js.all_digits (a +:+ b) = Js.all_digits a && Js.all_digits b.
Proof.
  induction a as [|c a IH]; [reflexivity|].
  change (Js.is_digit c && Js.all_digits (a +:+ b)
          = Js.is_digit c && Js.all_digits a && Js.all_digits b).
  rewrite IH. apply andb_assoc.
Qed.

Lemma substring_0_0 s : String.substring 0 0 s = "".
Proof. destruct s; reflexivity. Qed.

Lemma substring_all s : String.substring 0 (String.length s) s = s.
Proof.
  induction s as [|c s IH]; [reflexivity|].
  change (String c (String.substring 0 (String.length s) s) = String c s).
  rewrite IH. reflexivity.
Qed.

Lemma substring_split j s :
  j <= String.length s ->
  String.substring 0 j s +:+ String.substring j (String.length s - j) s = s.
Proof.
  revert s. induction j as [|j IH]; intros s H.
  - rewrite Nat.sub_0_r, substring_0_0, substring_all. reflexivity.
  - destruct s as [|c s]; [simpl in H; lia|].
    change (String c (String.substring 0 j s
                      +:+ String.substring j (String.length s - j) s)
            = String c s).
    rewrite IH; [reflexivity | simpl in H; lia].
Qed.

Lemma substring_length j m s :
  j + m <= String.length s -> String.length (String.substring j m s) = m.
Proof.
  revert m s. induction j as [|j IH]; intros m s H.
  - revert s H. induction m as [|m IHm]; intros s H.
    + destruct s; reflexivity.
    + destruct s as [|c s]; [simpl in H; lia|].
      change (S (String.length (String.substring 0 m s)) = S m).
      rewrite IHm; [reflexivity | simpl in H; lia].
  - destruct s as [|c s]; [simpl in H; lia|].
    change (String.length (String.substring j m s) = m).
    apply IH. simpl in H. lia.
Qed.

Lemma all_digits_zeros k : Js.all_digits (Float64.zeros k) = true.
Proof. induction k as [|k IH]; [reflexivity|]. simpl. exact IH. Qed.

Lemma length_zeros k : String.length (Float64.zeros k) = k.
Proof. induction k as [|k IH]; [reflexivity|]. simpl. rewrite IH. reflexivity. Qed.

Lemma all_digits_uint d : Js.all_digits (NilEmpty.string_of_uint d) = true.
Proof. induction d; simpl; auto. Qed.

Lemma all_digits_Number_toString n :
  (0 <= n)%Z -> Js.all_digits (Js.Number_toString n) = true.
Proof.
  intros H. unfold Js.Number_toString.
  destruct n as [|p|p]; [reflexivity| |lia].
  cbn [Z.to_int NilZero.string_of_int]. unfold NilZero.string_of_uint.
  destruct (Pos.to_uint p); auto using all_digits_uint.
Qed.

Lemma all_digits_pad_zeros m : Js.all_digits (Float64.pad_zeros m) = Js.all_digits m.
Proof.
  unfold Float64.pad_zeros. destruct (_ <=? 2)%nat; [|reflexivity].
  rewrite all_digits_append, all_digits_zeros. reflexivity.
Qed.

Lemma length_pad_zeros m : 3 <= String.length (Float64.pad_zeros m).
Proof.
  unfold Float64.pad_zeros.
  destruct (Nat.leb_spec (String.length m) 2) as [H|H]; [|lia].
  rewrite length_append, length_zeros. lia.
Qed.

(** The shape of the result of [toFixed(2)]: an optional minus sign, at
    least one digit, the decimal point, and exactly two digits; the
    digits are those of the number of hundredths. *)
Lemma toFixed2_format x :
  exists a b,
    Float64.toFixed2 x
      = (if (Float64.mant x <? 0)%Z then "-" else "") +:+ a +:+ "." +:+ b
    /\ a +:+ b
       = Float64.pad_zeros
           (Js.Number_toString (Z.abs (Float64.shown_hundredths x)))
    /\ String.length b = 2
    /\ 1 <= String.length a
    /\ Js.all_digits a = true
    /\ Js.all_digits b = true.
Proof.
  unfold Float64.toFixed2, Float64.shown_hundredths.
  set (n := Float64.nearest_hundredths (Qabs (Float64.value x))).
  assert (Hn : (0 <= n)%Z).
  { unfold n, Float64.nearest_hundredths.
    rewrite <- (Qfloor_Z 0). apply Qfloor_resp_le.
    pose proof (Qabs_nonneg (Float64.value x)). change (inject_Z 0) with 0%Q. lra. }
  assert (Habs : Z.abs (if (Float64.mant x <? 0)%Z then (- n)%Z else n) = n)
    by (destruct (_ <? _)%Z; lia).
  rewrite Habs.
  set (m := Float64.pad_zeros (Js.Number_toString n)).
  pose proof (length_pad_zeros (Js.Number_toString n)) as Hlen. fold m in Hlen.
  assert (Hd : Js.all_digits m = true).
  { unfold m. rewrite all_digits_pad_zeros. apply all_digits_Number_toString, Hn. }
  set (k := String.length m) in *.
  exists (String.substring 0 (k - 2) m), (String.substring (k - 2) 2 m).
  assert (Hsplit : String.substring 0 (k - 2) m +:+ String.substring (k - 2) 2 m = m).
  { assert (E : k - (k - 2) = 2) by lia.
    assert (Hk : k - 2 <= String.length m) by (fold k; lia).
    pose proof (substring_split (k - 2) m Hk) as Hs.
    fold k in Hs. rewrite E in Hs. exact Hs. }
  assert (Hb : String.length (String.substring (k - 2) 2 m) = 2)
    by (apply substring_length; fold k; lia).
  assert (Ha : String.length (String.substring 0 (k - 2) m) = k - 2)
    by (apply substring_length; fold k; lia).
  rewrite <- Hsplit, all_digits_append in Hd. apply andb_true_iff in Hd as [Hda Hdb].
  repeat split; try assumption. lia.
Qed.

End Digits.

(** C7, as the code has it.  On every successful request of
    [server.js] the clock is read immediately before and immediately
    after the inference call, and the reported processing time is the
    difference of the two readings divided by 1000, formatted by
    [toFixed(2)], with the suffix [s]: an optional minus sign, at least
    one digit, the decimal point and exactly two digits, which are the
    digits of the number of hundredths shown; that number is the number
    of milliseconds divided by ten and rounded to a nearest integer; it
    is not negative when the clock has not been set back between the two
    readings, it does not decrease when the second reading is later and
    does not increase when the first reading is later; with readings 0
    and 2000 the string is [2.00s]. *)
Theorem processing_time_reported w env req st :
  succeeded (events (post_api_ocr w env req) st) = true ->
  let start := t1 w st in
  let stop := t2 w st in
  (exists pre q c post,
      events (post_api_ocr w env req) st
      = pre ++ [DateNow start; ChatCreate q (inr c); DateNow stop] ++ post)
  /\ processing_times (events (post_api_ocr w env req) st)
     = [elapsed stop start +:+ "s"]
  /\ (exists a b,
        elapsed stop start
        = (if (Float64.mant (seconds stop start) <? 0)%Z then "-" else "")
            +:+ a +:+ "." +:+ b
        /\ a +:+ b
           = Float64.pad_zeros
               (Js.Number_toString
                  (Z.abs (Float64.shown_hundredths (seconds stop start))))
        /\ String.length b = 2
        /\ 1 <= String.length a
        /\ Js.all_digits a = true
        /\ Js.all_digits b = true)
  /\ ((Z.abs (ms stop - ms start) < 2 ^ 53)%Z ->
      (Z.abs (10 * Float64.shown_hundredths (seconds stop start)
              - (ms stop - ms start)) <= 5)%Z)
  /\ ((ms start <= ms stop)%Z ->
      (0 <= Float64.shown_hundredths (seconds stop start))%Z
      /\ (Float64.mant (seconds stop start) <? 0)%Z = false)
  /\ (forall later : TimeValue,
        (ms stop <= ms later)%Z ->
        (Float64.shown_hundredths (seconds stop start)
         <= Float64.shown_hundredths (seconds later start))%Z)
  /\ (forall later : TimeValue,
        (ms start <= ms later)%Z ->
        (Float64.shown_hundredths (seconds stop later)
         <= Float64.shown_hundredths (seconds stop start))%Z)
  /\ (ms start = 0%Z -> ms stop = 2000%Z -> elapsed stop start +:+ "s" = "2.00s").
Proof.
  intros Hs start stop. subst start stop.
  repeat apply conj.
  - revert Hs. server_cases w env req st; try discriminate. intros _.
    exists [DateNow (t0 w st); Send (image_put w env st f) None],
      (chat_request f), c,
      [Send (markdown_put w env st f (extracted c)) None;
       ok w env st f (extracted c)].
    reflexivity.
  - revert Hs. server_cases w env req st; try discriminate. reflexivity.
  - apply toFixed2_format.
  - apply Float64_facts.shown_hundredths_accurate.
  - intros Hle.
    pose proof (Float64_facts.seconds_nonneg _ _ Hle) as Hm.
    unfold Float64.shown_hundredths.
    destruct (Z.ltb_spec (Float64.mant (seconds (t2 w st) (t1 w st))) 0) as [H|H];
      [lia|].
    split; [|reflexivity].
    apply Float64_facts.nearest_hundredths_nonneg, Qabs_nonneg.
  - intros later Hle.
    apply Float64_facts.shown_hundredths_mono, Float64_facts.seconds_mono, Hle.
  - intros later Hle.
    apply Float64_facts.shown_hundredths_mono, Float64_facts.seconds_anti, Hle.
  - intros H1 H2. unfold elapsed, seconds. rewrite H1, H2.
    vm_compute. reflexivity.
Qed.

Lemma processing_time_reported_witness :
  processing_times Scenario.title_run = ["2.00s"].
Proof.
  destruct (processing_time_reported (Scenario.happy "# Title")
              Scenario.configured (Scenario.upload Scenario.png) Scenario.idle)
    as (_ & H & _).
  - vm_compute. reflexivity.
  - exact H.
Defined.

(** C7, as stated, fails: when the clock is set back from 2000 ms to
    0 ms during the inference call, the request succeeds and reports a
    negative processing time. *)
Lemma negative_processing_time :
  succeeded Scenario.set_back_run = true
  /\ processing_times Scenario.set_back_run = ["-2.00s"]
  /\ (Float64.shown_hundredths (seconds Scenario.at_0 Scenario.at_2000) < 0)%Z.
Proof. vm_compute. repeat split. Qed.

(** ** The scenarios, end to end *)

Example replace_ext_png : Js.replace_ext "uploads/17-a.png" = "uploads/17-a.md".
Proof. reflexivity. Qed.

Example replace_ext_two_dots :
  Js.replace_ext "uploads/17-a.tar.gz" = "uploads/17-a.tar.md".
Proof. reflexivity. Qed.

Example replace_ext_none : Js.replace_ext "uploads/17-README" = "uploads/17-README".
Proof. reflexivity. Qed.

Example replace_ext_trailing_dot : Js.replace_ext "uploads/17-a." = "uploads/17-a.".
Proof. reflexivity. Qed.

Example Number_toString_negative : Js.Number_toString (-42) = "-42".
Proof. reflexivity. Qed.

Example base64_png : Js.base64 (buffer Scenario.png) = "iVBO".
Proof. reflexivity. Qed.

(** The double nearest to 1.005 lies below it. *)
Example toFixed2_1005 :
  Float64.toFixed2
    (Float64.div (Float64.of_int 1005) (Float64.of_int 1000)) = "1.00".
Proof. vm_compute. reflexivity. Qed.

Example toFixed2_5 :
  Float64.toFixed2
    (Float64.div (Float64.of_int 5) (Float64.of_int 1000)) = "0.01".
Proof. vm_compute. reflexivity. Qed.

Example one_tenth :
  Float64.div (Float64.of_int 1) (Float64.of_int 10)
  = Float64.Dy 7205759403792794 (-56).
Proof. vm_compute. reflexivity. Qed.

(** A three-byte [a.png] with the fixed markdown [# Title]. *)
Example success_end_to_end :
  responses Scenario.title_run
  = [{| status := 200;
        envelope :=
          Success "OCR processing completed successfully"
            {| inputFile := "uploads/17-a.png";
               outputFile := "uploads/17-a.md";
               markdown := "# Title";
               bucket := "ocr-bucket";
               processingTime := "2.00s" |} |}]
  /\ responses Scenario.title_tmp_run = responses Scenario.title_run.
Proof. vm_compute. split; reflexivity. Qed.

(** The inference double throws [RateLimited]: the image is written, no
    markdown write is issued, and the message is passed on. *)
Example rate_limited_end_to_end :
  responses Scenario.throttled_run
  = [{| status := 500; envelope := Failure "RateLimited" |}]
  /\ written is_image Scenario.throttled_run = true
  /\ issued is_markdown Scenario.throttled_run = false.
Proof. vm_compute. repeat split. Qed.

(** A request without the [image] field is turned away before anything
    else happens. *)
Example missing_file_end_to_end :
  events (post_api_ocr (Scenario.happy "# Title") Scenario.configured
            Scenario.empty_request) Scenario.idle
  = [Respond {| status := 400;
                envelope :=
                  Failure "No image file provided. Please upload an image." |}].
Proof. reflexivity. Qed.

(** * Further properties of the code *)

(** ** Keys *)

Section Keys.

Lemma split_last_dot_some s stem ext :
  split_last_dot s = Some (stem, ext) ->
  s = stem +:+ "." +:+ ext /\ Js.no_dot ext = true.
Proof.
  revert stem. induction s as [|c s IH]; intros stem H; [discriminate|].
  cbn [split_last_dot] in H.
  destruct (split_last_dot s) as [[stem' ext']|] eqn:E.
  - injection H as <- <-. destruct (IH stem' eq_refl) as [-> Hd].
    split; [reflexivity | exact Hd].
  - destruct (Ascii.eqb_spec c "."); [|discriminate].
    injection H as <- <-. subst c.
    split; [reflexivity | apply split_last_dot_none, E].
Qed.

Lemma split_last_dot_prefix p s :
  Js.no_dot p = true ->
  split_last_dot (p +:+ s)
  = match split_last_dot s with
    | Some (stem, ext) => Some (p +:+ stem, ext)
    | None => None
    end.
Proof.
  induction p as [|c p IH]; intros H.
  - change ("" +:+ s) with s. destruct (split_last_dot s) as [[? ?]|]; reflexivity.
  - cbn [Js.no_dot] in H. apply andb_true_iff in H as [Hc Hp].
    change (String c p +:+ s) with (String c (p +:+ s)).
    cbn [split_last_dot]. rewrite (IH Hp).
    destruct (split_last_dot s) as [[stem ext]|]; [reflexivity|].
    destruct (Ascii.eqb c "."); [discriminate | reflexivity].
Qed.

Lemma with_md_extension_prefix p s :
  Js.no_dot p = true ->
  with_md_extension (p +:+ s) = p +:+ with_md_extension s.
Proof.
  intros H. unfold with_md_extension. rewrite (split_last_dot_prefix p s H).
  destruct (split_last_dot s) as [[stem [|c ext]]|];
    [reflexivity | apply append_assoc | reflexivity].
Qed.

Lemma with_md_extension_fixed s :
  with_md_extension s = s
  <-> match split_last_dot s with
      | None => True
      | Some (_, ext) => ext = "" \/ ext = "md"
      end.
Proof.
  unfold with_md_extension.
  destruct (split_last_dot s) as [[stem ext]|] eqn:E; [|tauto].
  destruct (split_last_dot_some s stem ext E) as [Hs _].
  destruct ext as [|c ext]; [tauto|].
  rewrite Hs. split.
  - intros H. right. apply (inj (String.append stem)) in H.
    injection H as <- <-. reflexivity.
  - intros [H|H]; [discriminate | rewrite H; reflexivity].
Qed.

Lemma no_dot_uploads t :
  Js.no_dot ("uploads/" +:+ Js.Number_toString (ms t) +:+ "-") = true.
Proof. rewrite !no_dot_app, no_dot_Number_toString. reflexivity. Qed.

Lemma s3Key_prefix t f :
  s3Key t f
  = ("uploads/" +:+ Js.Number_toString (ms t) +:+ "-") +:+ originalname f.
Proof. unfold s3Key. rewrite !append_assoc. reflexivity. Qed.

(** X1. The markdown key keeps the prefix and the timestamp of the image key:
    only the original name is rewritten, and rewriting a markdown key
    again changes nothing. *)
Theorem mdKey_shape t f :
  mdKey (s3Key t f)
  = "uploads/" +:+ Js.Number_toString (ms t) +:+ "-"
      +:+ with_md_extension (originalname f)
  /\ mdKey (mdKey (s3Key t f)) = mdKey (s3Key t f).
Proof.
  assert (H : mdKey (s3Key t f)
              = "uploads/" +:+ Js.Number_toString (ms t) +:+ "-"
                  +:+ with_md_extension (originalname f)).
  { unfold mdKey. rewrite replace_ext_with_md_extension, s3Key_prefix.
    rewrite with_md_extension_prefix by apply no_dot_uploads.
    rewrite !append_assoc. reflexivity. }
  split; [exact H|].
  unfold mdKey. rewrite !replace_ext_with_md_extension.
  generalize (s3Key t f). intros s. unfold with_md_extension at 2 3.
  destruct (split_last_dot s) as [[stem [|c ext]]|] eqn:E.
  - unfold with_md_extension. rewrite E. reflexivity.
  - apply (with_md_extension_ext stem "md"); [discriminate | reflexivity].
  - unfold with_md_extension. rewrite E. reflexivity.
Qed.

(** X2. The markdown write lands on the key of the image exactly when the
    original name has no dot, ends in a dot, or already has the extension
    [md]. *)
Theorem mdKey_collides t f :
  mdKey (s3Key t f) = s3Key t f
  <-> match split_last_dot (originalname f) with
      | None => True
      | Some (_, ext) => ext = "" \/ ext = "md"
      end.
Proof.
  rewrite <- with_md_extension_fixed.
  destruct (mdKey_shape t f) as [-> _]. rewrite s3Key_prefix, !append_assoc.
  split.
  - intros H. repeat apply (inj (String.append _)) in H. exact H.
  - intros ->. reflexivity.
Qed.

End Keys.

Section Stamps.

Lemma to_int_proper n : Z.to_int n <> Decimal.Pos Decimal.Nil
                        /\ Z.to_int n <> Decimal.Neg Decimal.Nil.
Proof.
  destruct n as [|p|p]; simpl; split; try discriminate;
    intros [= H]; exact (DecimalPos.Unsigned.to_uint_nonnil p H).
Qed.

(** [String(n)] can be read back: different numbers print differently. *)
Lemma Number_toString_inj n n' :
  Js.Number_toString n = Js.Number_toString n' -> n = n'.
Proof.
  unfold Js.Number_toString. intros H.
  destruct (to_int_proper n) as [H1 H2]. destruct (to_int_proper n') as [H1' H2'].
  pose proof (NilZero.isi _ H1 H2) as E. pose proof (NilZero.isi _ H1' H2') as E'.
  rewrite H, E' in E. injection E as E.
  symmetry. apply DecimalZ.to_int_inj, E.
Qed.

Lemma Number_toString_nonempty n : Js.Number_toString n <> "".
Proof.
  unfold Js.Number_toString, NilZero.string_of_int, NilZero.string_of_uint.
  destruct (Z.to_int n) as [d|d]; destruct d; discriminate.
Qed.

Lemma Number_toString_neg p :
  Js.Number_toString (Z.neg p) = String "-" (Js.Number_toString (Z.pos p)).
Proof. reflexivity. Qed.

Lemma digits_then_minus a b x y :
  Js.all_digits a = true -> Js.all_digits b = true ->
  a +:+ String "-" x = b +:+ String "-" y -> a = b /\ x = y.
Proof.
  revert b. induction a as [|c a IH]; intros [|c' b] Ha Hb H.
  - injection H as ->. split; reflexivity.
  - cbn [Js.all_digits] in Hb. apply andb_true_iff in Hb as [Hc _].
    injection H as <- _. discriminate Hc.
  - cbn [Js.all_digits] in Ha. apply andb_true_iff in Ha as [Hc _].
    injection H as -> _. discriminate Hc.
  - cbn [Js.all_digits] in Ha, Hb.
    apply andb_true_iff in Ha as [_ Ha]. apply andb_true_iff in Hb as [_ Hb].
    injection H as -> H. destruct (IH b Ha Hb H) as [-> ->].
    split; reflexivity.
Qed.

Lemma digits_not_minus d x s :
  Js.all_digits d = true -> d <> "" -> d +:+ x <> String "-" s.
Proof.
  intros Hd Hne H. destruct d as [|c d]; [congruence|].
  cbn [Js.all_digits] in Hd. apply andb_true_iff in Hd as [Hc _].
  injection H as -> _. discriminate Hc.
Qed.

Lemma stamp_inj n n' x y :
  Js.Number_toString n +:+ String "-" x = Js.Number_toString n' +:+ String "-" y ->
  n = n' /\ x = y.
Proof.
  assert (Hnn : forall m a b,
            (0 <= m)%Z -> (0 <= n')%Z ->
            Js.Number_toString m +:+ String "-" a
            = Js.Number_toString n' +:+ String "-" b -> m = n' /\ a = b).
  { intros m a b Hm Hn' H.
    destruct (digits_then_minus _ _ _ _
                (all_digits_Number_toString m Hm)
                (all_digits_Number_toString n' Hn') H) as [E ->].
    split; [apply Number_toString_inj, E | reflexivity]. }
  intros H. destruct n as [|p|p], n' as [|p'|p'];
    try (apply Hnn; [lia | lia | exact H]).
  - exfalso. rewrite Number_toString_neg in H.
    exact (digits_not_minus _ _ _ (all_digits_Number_toString 0 ltac:(lia))
             (Number_toString_nonempty 0) H).
  - exfalso. rewrite Number_toString_neg in H.
    exact (digits_not_minus _ _ _ (all_digits_Number_toString (Z.pos p) ltac:(lia))
             (Number_toString_nonempty _) H).
  - exfalso. rewrite Number_toString_neg in H. symmetry in H.
    exact (digits_not_minus _ _ _ (all_digits_Number_toString 0 ltac:(lia))
             (Number_toString_nonempty 0) H).
  - exfalso. rewrite Number_toString_neg in H. symmetry in H.
    exact (digits_not_minus _ _ _ (all_digits_Number_toString (Z.pos p') ltac:(lia))
             (Number_toString_nonempty _) H).
  - rewrite !Number_toString_neg in H.
    change (String "-" (Js.Number_toString (Z.pos p) +:+ String "-" x)
            = String "-" (Js.Number_toString (Z.pos p') +:+ String "-" y)) in H.
    injection H as H.
    destruct (digits_then_minus _ _ _ _
                (all_digits_Number_toString (Z.pos p) ltac:(lia))
                (all_digits_Number_toString (Z.pos p') ltac:(lia)) H) as [E ->].
    apply Number_toString_inj in E. injection E as ->. split; reflexivity.
Qed.

(** X3. Two uploads get the same image key, and in the temp-file variant the
    same temporary path, exactly when they carry the same original name
    and are stamped in the same millisecond. *)
Theorem s3Key_inj t t' f f' :
  (s3Key t f = s3Key t' f'
   <-> ms t = ms t' /\ originalname f = originalname f')
  /\ (tempPath t f = tempPath t' f'
      <-> ms t = ms t' /\ originalname f = originalname f').
Proof.
  unfold s3Key, tempPath. split; split.
  - intros H. apply (inj (String.append "uploads/")) in H.
    apply (stamp_inj _ _ _ _ H).
  - intros [-> ->]. reflexivity.
  - intros H. apply (inj (String.append "/tmp/")) in H.
    apply (stamp_inj _ _ _ _ H).
  - intros [-> ->]. reflexivity.
Qed.

End Stamps.

(** ** Responses *)

Section Responses.

Lemma or_else_error_text e :
  Js.or_else (message e) "Failed to process image" = error_text e.
Proof.
  unfold Js.or_else, Js.truthy, error_text.
  destruct (message e) as [m|]; [|reflexivity].
  destruct (String.eqb m ""); reflexivity.
Qed.

Lemma error_text_nonempty e : error_text e <> "".
Proof.
  unfold error_text. destruct (message e) as [m|]; [|discriminate].
  destruct (String.eqb_spec m ""); [discriminate | assumption].
Qed.

Lemma or_else_nonempty v d : d <> "" -> Js.or_else v d <> "".
Proof.
  intros Hd. unfold Js.or_else, Js.truthy.
  destruct v as [s|]; [|exact Hd]. simpl.
  destruct (String.eqb_spec s ""); [exact Hd | assumption].
Qed.

End Responses.

Ltac answers :=
  unfold ok, failed, no_file, no_credential, no_bucket, respond, result;
  simpl; rewrite ?or_else_error_text.

Ltac each := repeat match goal with |- Forall _ _ => constructor end.

Ltac codes :=
  unfold status_ok; simpl;
  repeat split; intros; try discriminate; try congruence; auto.

Section Answers.


(** X4. The status is 200 exactly for the success envelope and 400 exactly
    for a request without a file; every other response has status 500. *)
Theorem status_codes w env req st :
  Forall (status_ok req) (responses (events (post_api_ocr w env req) st))
  /\ Forall (status_ok req)
       (responses (events (post_api_ocr_tmp w env req) st)).
Proof.
  split.
  - server_cases w env req st; answers; each; codes.
  - tmp_cases w env req st; answers; each; codes.
Qed.

(** X5. A failure envelope never carries an empty text, and when a stage
    fails the text is the message of the thrown error, or
    [Failed to process image] when the error has no message or an empty
    one; the status is then 500. *)
Theorem failure_texts w env req st :
  Forall (fun r => forall msg, envelope r = Failure msg -> msg <> "")
    (responses (events (post_api_ocr w env req) st))
  /\ Forall (fun r => forall msg, envelope r = Failure msg -> msg <> "")
       (responses (events (post_api_ocr_tmp w env req) st))
  /\ Forall (fun ev => forall e, stage_error ev = Some e ->
               responses (events (post_api_ocr w env req) st)
               = [{| status := 500; envelope := Failure (error_text e) |}])
       (events (post_api_ocr w env req) st)
  /\ Forall (fun ev => forall e, stage_error ev = Some e ->
               responses (events (post_api_ocr_tmp w env req) st)
               = [{| status := 500; envelope := Failure (error_text e) |}])
       (events (post_api_ocr_tmp w env req) st).
Proof.
  repeat apply conj.
  - server_cases w env req st; answers; each;
      intros msg [= <-]; try discriminate; apply error_text_nonempty.
  - tmp_cases w env req st; answers; each;
      intros msg [= <-]; try discriminate; apply error_text_nonempty.
  - server_cases w env req st; answers; each;
      intros e0 He; try discriminate He; injection He as <-; reflexivity.
  - tmp_cases w env req st; answers; each;
      intros e0 He; try discriminate He; injection He as <-; reflexivity.
Qed.

(** X6. [server.js] never answers with an empty markdown and never stores
    one: an empty extraction has been replaced before. *)
Theorem markdown_never_empty w env req st :
  Forall (fun md => md <> "")
    (answered_markdown (events (post_api_ocr w env req) st))
  /\ Forall (fun c => forall md, Body c = Text md -> md <> "")
       (sends_of (events (post_api_ocr w env req) st)).
Proof.
  split.
  - server_cases w env req st; unfold ok, failed, no_file, no_credential,
      no_bucket, respond, result; simpl; each.
    unfold extracted. apply or_else_nonempty. discriminate.
  - server_cases w env req st; simpl; each;
      intros md He; try discriminate He; injection He as <-;
      unfold extracted; apply or_else_nonempty; discriminate.
Qed.

End Answers.

(** ** The store and the temporary directory *)

Section Frame.

(** X7. A request leaves every object of the store alone except those under
    its own image key and markdown key, and the temp-file variant leaves
    every file alone except its own temporary file. *)
Theorem request_frame w env req st k p :
  (forall f, file req = Some f ->
     k <> (bucketName env, s3Key (t0 w st) f)
     /\ k <> (bucketName env, mdKey (s3Key (t0 w st) f))
     /\ p <> tempPath (t0 w st) f) ->
  store (run (post_api_ocr w env req) st) !! k = store st !! k
  /\ store (run (post_api_ocr_tmp w env req) st) !! k = store st !! k
  /\ tmp (run (post_api_ocr_tmp w env req) st) !! p = tmp st !! p.
Proof.
  intros H. repeat apply conj.
  - server_cases w env req st; try reflexivity;
      destruct (H _ Hf) as (K1 & K2 & _);
      unfold after, stored, image_put, markdown_put, put; simpl;
      rewrite ?lookup_insert_ne by congruence; reflexivity.
  - tmp_cases w env req st; try reflexivity;
      destruct (H _ Hf) as (K1 & K2 & _);
      unfold after, stored, image_put, markdown_put, put; simpl;
      rewrite ?lookup_insert_ne by congruence; reflexivity.
  - tmp_cases w env req st; try reflexivity;
      destruct (H _ Hf) as (_ & _ & K3);
      unfold after, cleaned, staged; simpl;
      try destruct (fs_unlink w _);
      rewrite ?lookup_delete_ne by congruence;
      rewrite ?lookup_insert_ne by congruence; reflexivity.
Qed.

Lemma request_frame_witness :
  store (run (post_api_ocr (Scenario.happy "# Title") Scenario.configured
                (Scenario.upload Scenario.png)) Scenario.busy)
    !! ("ocr-bucket", "uploads/3-old.md") = Some Scenario.old_object
  /\ store (run (post_api_ocr_tmp (Scenario.happy "# Title") Scenario.configured
                  (Scenario.upload Scenario.png)) Scenario.busy)
      !! ("ocr-bucket", "uploads/3-old.md") = Some Scenario.old_object
  /\ tmp (run (post_api_ocr_tmp (Scenario.happy "# Title") Scenario.configured
                (Scenario.upload Scenario.png)) Scenario.busy)
      !! "/tmp/3-old.png" = Some [x00].
Proof.
  apply (request_frame (Scenario.happy "# Title") Scenario.configured
           (Scenario.upload Scenario.png) Scenario.busy
           ("ocr-bucket", "uploads/3-old.md") "/tmp/3-old.png").
  intros f [= <-]. vm_compute. repeat split; discriminate.
Defined.

(** X8. What the success envelope names is what the store holds: the
    markdown of the answer under [outputFile], and the uploaded bytes
    with their content type under [inputFile] whenever the two keys
    differ. *)
Theorem success_envelope_resolves w env req st :
  Forall (resolves (store (run (post_api_ocr w env req) st)) req)
    (responses (events (post_api_ocr w env req) st))
  /\ Forall (resolves (store (run (post_api_ocr_tmp w env req) st)) req)
       (responses (events (post_api_ocr_tmp w env req) st)).
Proof.
  split.
  - server_cases w env req st;
      unfold ok, failed, no_file, no_credential, no_bucket, respond;
      simpl; each; try exact I.
    unfold resolves, result, after, stored, markdown_put, image_put, put.
    simpl. split; [apply lookup_insert_eq|].
    intros Hne. exists f. split; [exact Hf|].
    rewrite lookup_insert_ne by congruence. apply lookup_insert_eq.
  - tmp_cases w env req st;
      unfold ok, failed, no_file, no_credential, no_bucket, respond;
      simpl; each; try exact I.
    unfold resolves, result, after, stored, markdown_put, image_put, put.
    simpl. split; [apply lookup_insert_eq|].
    intros Hne. exists f. split; [exact Hf|].
    rewrite lookup_insert_ne by congruence. apply lookup_insert_eq.
Qed.

(** X9. [server.js] never touches the file system and never calls the OCR
    library; the temp-file variant never calls the chat-completions
    API. *)
Theorem variants_keep_to_their_services w env req st :
  tmp (run (post_api_ocr w env req) st) = tmp st
  /\ count uses_fs (events (post_api_ocr w env req) st) = 0
  /\ count uses_chat (events (post_api_ocr_tmp w env req) st) = 0.
Proof.
  repeat apply conj.
  - server_cases w env req st; reflexivity.
  - server_cases w env req st; reflexivity.
  - tmp_cases w env req st; reflexivity.
Qed.

(** X10. No request reads the clock more than three times, sends more than
    two commands to the store or calls the inference service more than
    once; a request that fails validation does none of these: its only
    event is the response. *)
Theorem service_budget w env req st :
  (count is_clock (events (post_api_ocr w env req) st) <= 3
   /\ count is_send (events (post_api_ocr w env req) st) <= 2
   /\ count inference_call (events (post_api_ocr w env req) st) <= 1
   /\ (valid env req = false ->
       count is_service (events (post_api_ocr w env req) st) = 0))
  /\ (count is_clock (events (post_api_ocr_tmp w env req) st) <= 3
      /\ count is_send (events (post_api_ocr_tmp w env req) st) <= 2
      /\ count inference_call (events (post_api_ocr_tmp w env req) st) <= 1
      /\ count uses_fs (events (post_api_ocr_tmp w env req) st) <= 3
      /\ (valid env req = false ->
          count is_service (events (post_api_ocr_tmp w env req) st) = 0)).
Proof.
  split.
  - server_cases w env req st; unfold count; simpl;
      repeat split; try lia; try reflexivity; intros; congruence.
  - tmp_cases w env req st; unfold count; simpl;
      repeat split; try lia; try reflexivity; intros; congruence.
Qed.

End Frame.

(** ** The temp-file variant *)

Section Staging.

(** X11. On a successful request the temp-file variant attempts the removal
    of its temporary file exactly once, after the markdown upload; the
    file is gone when [fs.unlink] succeeds and is left behind, holding
    the upload, when it fails. *)
Theorem temp_file_removed_on_success w env req st f :
  file req = Some f ->
  succeeded (events (post_api_ocr_tmp w env req) st) = true ->
  unlinks (events (post_api_ocr_tmp w env req) st) = [tempPath (t0 w st) f]
  /\ never_before markdown_upload
       (fun ev => match ev with Unlink _ _ => true | _ => false end)
       (events (post_api_ocr_tmp w env req) st) = true
  /\ tmp (run (post_api_ocr_tmp w env req) st) !! tempPath (t0 w st) f
     = match fs_unlink w (tempPath (t0 w st) f) with
       | None => None
       | Some _ => Some (buffer f)
       end.
Proof.
  intros Hfile.
  tmp_cases w env req st; try discriminate; intros _; same_file.
  repeat split.
  unfold after, cleaned, staged. simpl.
  destruct (fs_unlink w _); [apply lookup_insert_eq | apply lookup_delete_eq].
Qed.

Lemma temp_file_removed_on_success_witness :
  unlinks Scenario.title_tmp_run = ["/tmp/17-a.png"]
  /\ never_before markdown_upload
       (fun ev => match ev with Unlink _ _ => true | _ => false end)
       Scenario.title_tmp_run = true
  /\ tmp (run (post_api_ocr_tmp (Scenario.happy "# Title") Scenario.configured
                (Scenario.upload Scenario.png)) Scenario.idle)
      !! "/tmp/17-a.png" = None.
Proof.
  apply (temp_file_removed_on_success (Scenario.happy "# Title")
           Scenario.configured (Scenario.upload Scenario.png) Scenario.idle
           Scenario.png).
  - reflexivity.
  - vm_compute. reflexivity.
Defined.

Lemma truthy_default v : Js.truthy v = true -> v = Some (default "" v) /\ default "" v <> "".
Proof.
  unfold Js.truthy. destruct v as [s|]; [|discriminate]. simpl.
  destruct (String.eqb_spec s ""); [discriminate|]. intros _. split; [reflexivity | assumption].
Qed.

Lemma valid_credential env req :
  valid env req = true -> Js.truthy (TOGETHER_API_KEY env) = true.
Proof.
  unfold valid. destruct (file req); [|discriminate].
  intros H. apply andb_true_iff in H as [H _]. exact H.
Qed.

(** X12. Whenever the temp-file variant calls the OCR library, it passes the
    configured, non-empty credential and the path of its temporary file,
    and that file then holds exactly the uploaded bytes. *)
Theorem ocr_reads_the_staged_upload w env req st :
  Forall (ocr_call_ok w env req st) (events (post_api_ocr_tmp w env req) st).
Proof.
  tmp_cases w env req st; each; try exact I;
    exists f; destruct (truthy_default _ (valid_credential _ _ Hv)) as [Hk Hne];
    unfold ocr_args in *; simpl; repeat split; auto.
Qed.

End Staging.

(** ** When a request succeeds *)

(** X13. A request to [server.js] succeeds exactly when it passes validation,
    the store accepts the image, the inference call returns and the
    store accepts the markdown. *)
Theorem success_needs_every_stage w env req st :
  succeeded (events (post_api_ocr w env req) st) = true
  <-> exists f c,
      file req = Some f
      /\ valid env req = true
      /\ s3 w (sends st) (image_put w env st f) = None
      /\ chat w (chat_request f) = inr c
      /\ s3 w (S (sends st)) (markdown_put w env st f (extracted c)) = None.
Proof.
  server_cases w env req st; split; try discriminate;
    try (intros (f0 & c0 & Hf0 & Hv0 & K1 & K2 & K3); exfalso;
         try clash; same_file; congruence).
  - intros _. exists f, c. auto.
  - reflexivity.
Qed.

(** ** Start-up *)

Section Startup.

(** X14. The start-up banner does not depend on the value of the credential,
    only on whether it is set: two non-empty credentials give the same
    lines. *)
Theorem banner_masks_credential e k k' :
  k <> "" -> k' <> "" ->
  banner (with_key e (Some k)) = banner (with_key e (Some k')).
Proof.
  intros Hk Hk'. unfold banner, with_key, shown_port, Js.truthy. simpl.
  destruct (String.eqb_spec k ""); [contradiction|].
  destruct (String.eqb_spec k' ""); [contradiction|].
  reflexivity.
Qed.

Lemma banner_masks_credential_witness :
  banner (with_key Scenario.only_key (Some "secret"))
  = banner (with_key Scenario.only_key (Some "another")).
Proof.
  apply (banner_masks_credential Scenario.only_key "secret" "another");
    discriminate.
Defined.

(** X15. The banner reports the credential as set exactly when the validator
    of the requests accepts it, and shows the bucket only when the
    validator accepts that. *)
Theorem banner_agrees_with_validator e :
  (In "   - Together API Key: SET ✓" (banner e)
   <-> Js.truthy (TOGETHER_API_KEY (vars e)) = true)
  /\ (In "   - S3 Bucket: NOT SET" (banner e)
      <-> (Js.truthy (BUCKET_NAME (vars e)) = false
           \/ BUCKET_NAME (vars e) = Some "NOT SET")).
Proof.
  unfold banner. split; split.
  - intros H. cbn [In] in H.
    destruct (Js.truthy (TOGETHER_API_KEY (vars e))); [reflexivity|].
    repeat (destruct H as [H|H]; [discriminate H|]). contradiction.
  - intros ->. cbn [In]. do 8 right. left. reflexivity.
  - intros H. cbn [In] in H.
    repeat (destruct H as [H|H];
            [first [discriminate H
                   | destruct (Js.truthy (TOGETHER_API_KEY (vars e)));
                     discriminate H
                   | idtac] |]); [|contradiction].
    apply (inj (String.append "   - S3 Bucket: ")) in H.
    unfold Js.or_else in H.
    destruct (Js.truthy (BUCKET_NAME (vars e))) eqn:T; [right | left; reflexivity].
    destruct (BUCKET_NAME (vars e)) as [b|]; [|discriminate T].
    simpl in H. rewrite H. reflexivity.
  - intros H. cbn [In]. do 7 right. left. f_equal.
    unfold Js.or_else. destruct H as [-> | ->]; reflexivity.
Qed.

End Startup.

(** ** The elapsed time and the data URL *)

Section Payload.

(** X16. For readings less than [2 ^ 53] milliseconds apart the subtraction
    is exact: the reported time is the difference of the readings,
    divided by 1000 and rounded once, so that it depends on the readings
    only through their difference. *)
Theorem elapsed_of_difference now start :
  (Z.abs (ms now - ms start) < 2 ^ 53)%Z ->
  elapsed now start
  = Float64.toFixed2 (Float64.RN (inject_Z (ms now - ms start) / 1000))
  /\ forall now' start' : TimeValue,
      (ms now' - ms start' = ms now - ms start)%Z ->
      elapsed now' start' = elapsed now start.
Proof.
  assert (H : forall a b : TimeValue,
            (Z.abs (ms a - ms b) < 2 ^ 53)%Z ->
            elapsed a b
            = Float64.toFixed2 (Float64.RN (inject_Z (ms a - ms b) / 1000))).
  { intros a b Hd. unfold elapsed, seconds, Float64.div. f_equal.
    apply Float64_facts.RN_comp.
    rewrite Float64_facts.sub_exact
      by (try apply Float64_facts.ms_bound; exact Hd).
    rewrite Float64_facts.value_1000. reflexivity. }
  intros Hd. split; [apply H, Hd|].
  intros now' start' E. rewrite !H by (rewrite ?E; exact Hd).
  rewrite E. reflexivity.
Qed.

Lemma elapsed_of_difference_witness :
  elapsed Scenario.at_2000 Scenario.at_0
  = Float64.toFixed2 (Float64.RN (inject_Z (2000 - 0) / 1000)).
Proof.
  refine (proj1 (elapsed_of_difference Scenario.at_2000 Scenario.at_0 _)).
  vm_compute. reflexivity.
Defined.

Lemma list_ind3 {A} (P : list A -> Prop) :
  P [] -> (forall a, P [a]) -> (forall a b, P [a; b]) ->
  (forall a b c l, P l -> P (a :: b :: c :: l)) ->
  forall l, P l.
Proof.
  intros H0 H1 H2 H3 l.
  assert (H : P l /\ (forall a, P (a :: l)) /\ (forall a b, P (a :: b :: l))).
  { induction l as [|x l (IH0 & IH1 & IH2)]; [auto|].
    repeat split; auto. }
  apply H.
Qed.

Lemma base64_length bs :
  String.length (Js.base64 bs) = 4 * ((length bs + 2) / 3).
Proof.
  induction bs as [|a|a b|a b c l IH] using list_ind3; try reflexivity.
  change (S (S (S (S (String.length (Js.base64 l)))))
          = 4 * ((S (S (S (length l))) + 2) / 3)).
  rewrite IH.
  replace (S (S (S (length l))) + 2) with (length l + 2 + 1 * 3) by lia.
  rewrite Nat.div_add by lia. lia.
Qed.

(** X17. The data URL sent to the inference service is the fixed frame around
    the content type and four characters for every three bytes of the
    upload, the last group being padded. *)
Theorem imageDataUrl_length f :
  String.length (imageDataUrl f)
  = 13 + String.length (mimetype f) + 4 * ((length (buffer f) + 2) / 3).
Proof.
  unfold imageDataUrl. rewrite !length_append, base64_length. simpl. lia.
Qed.

End Payload.
